(** * Parameter checkpoint store of the "Save and load models" notebook

    The notebook [src/ML/Save and load models.ipynb] builds a small Keras
    classifier ([create_model]), saves its weights with
    [ModelCheckpoint] / [Model.save_weights], and restores them with
    [Model.load_weights] and [tf.train.latest_checkpoint].  The checkpoint
    store itself (naming, index, retention, latest pointer, staging of
    blobs) is delegated to the framework and is specified as the
    [CheckpointStore] component of the specification; it is embedded here
    as the specification describes it.  [create_model] is embedded from the
    notebook. *)

From Stdlib Require Import List String Ascii ZArith Lia Bool PeanoNat Permutation.
Import ListNotations.

(** ** Tensors and parameter mappings *)

(** A scalar of a float tensor: a finite value (its bit pattern as an
    integer) or one of the non-finite values. *)
Inductive num :=
| Finite (z : Z)
| PosInf
| NegInf
| NaN.

Record tensor := mk_tensor { shape : list nat; data : list num }.

(** A parameter mapping: parameter key to tensor, in the model's order. *)
Definition params := list (string * tensor).

Definition is_finite (x : num) : bool :=
  match x with Finite _ => true | _ => false end.

Definition prod_dims (s : list nat) : nat := fold_right Nat.mul 1 s.

(** ** Blob serialization

    Modelled from the spec: the parameter blob ("opaque serialized
    representation of all trainable tensors, each tensor identified by a
    stable parameter key") is a length-prefixed stream of integers. *)

Definition blob := list Z.

Definition enc_list {A} (enc : A -> list Z) (l : list A) : list Z :=
  Z.of_nat (List.length l) :: flat_map enc l.

Fixpoint dec_n {A} (dec : list Z -> option (A * list Z)) (n : nat)
    (ts : list Z) : option (list A * list Z) :=
  match n with
  | O => Some ([], ts)
  | S n' =>
      match dec ts with
      | Some (a, r) =>
          match dec_n dec n' r with
          | Some (l, r') => Some (a :: l, r')
          | None => None
          end
      | None => None
      end
  end.

Definition dec_list {A} (dec : list Z -> option (A * list Z)) (ts : list Z)
    : option (list A * list Z) :=
  match ts with
  | [] => None
  | t :: r => if (t <? 0)%Z then None else dec_n dec (Z.to_nat t) r
  end.

Definition enc_num (x : num) : list Z :=
  match x with
  | Finite z => [0%Z; z]
  | PosInf => [1%Z]
  | NegInf => [2%Z]
  | NaN => [3%Z]
  end.

Definition dec_num (ts : list Z) : option (num * list Z) :=
  match ts with
  | t :: r =>
      if (t =? 0)%Z then
        match r with z :: r' => Some (Finite z, r') | [] => None end
      else if (t =? 1)%Z then Some (PosInf, r)
      else if (t =? 2)%Z then Some (NegInf, r)
      else if (t =? 3)%Z then Some (NaN, r)
      else None
  | [] => None
  end.

Definition enc_nat (n : nat) : list Z := [Z.of_nat n].

Definition dec_nat (ts : list Z) : option (nat * list Z) :=
  match ts with
  | t :: r => if (t <? 0)%Z then None else Some (Z.to_nat t, r)
  | [] => None
  end.

Definition enc_char (c : ascii) : list Z := [Z.of_nat (nat_of_ascii c)].

Definition dec_char (ts : list Z) : option (ascii * list Z) :=
  match ts with
  | t :: r => Some (ascii_of_nat (Z.to_nat t), r)
  | [] => None
  end.

Definition enc_key (k : string) : list Z :=
  enc_list enc_char (list_ascii_of_string k).

Definition dec_key (ts : list Z) : option (string * list Z) :=
  match dec_list dec_char ts with
  | Some (cs, r) => Some (string_of_list_ascii cs, r)
  | None => None
  end.

Definition enc_tensor (t : tensor) : list Z :=
  enc_list enc_nat (shape t) ++ enc_list enc_num (data t).

Definition dec_tensor (ts : list Z) : option (tensor * list Z) :=
  match dec_list dec_nat ts with
  | Some (sh, r) =>
      match dec_list dec_num r with
      | Some (dt, r') => Some (mk_tensor sh dt, r')
      | None => None
      end
  | None => None
  end.

Definition enc_entry (kt : string * tensor) : list Z :=
  enc_key (fst kt) ++ enc_tensor (snd kt).

Definition dec_entry (ts : list Z) : option ((string * tensor) * list Z) :=
  match dec_key ts with
  | Some (k, r) =>
      match dec_tensor r with
      | Some (t, r') => Some ((k, t), r')
      | None => None
      end
  | None => None
  end.

(** Modelled from the spec: the blob [save] writes for a parameter
    mapping (the framework's checkpoint writer is not in the repository). *)
Definition serialize (P : params) : blob := enc_list enc_entry P.

Definition deserialize (b : blob) : option params :=
  match dec_list dec_entry b with
  | Some (P, []) => Some P
  | _ => None
  end.

(** ** Checkpoint names

    Modelled from the spec: [render_name(template, context)], the pure
    function that renders a checkpoint name from a template such as the
    notebook's ["cp-{epoch:04d}.ckpt"] ([str.format] with a zero-padded
    field) or the fixed ["cp.ckpt"]. *)

Inductive piece :=
| Lit (s : string)
| EpochField (width : nat).

Definition template := list piece.

Record step_context := mk_ctx { epoch : nat }.

Fixpoint digits_aux (fuel n : nat) (acc : string) : string :=
  match fuel with
  | O => acc
  | S f =>
      let acc' := String (ascii_of_nat (48 + n mod 10)) acc in
      if n <? 10 then acc' else digits_aux f (n / 10) acc'
  end.

Definition decimal (n : nat) : string := digits_aux (S n) n EmptyString.

Fixpoint pad_zeros (k : nat) : string :=
  match k with O => EmptyString | S k' => String "0" (pad_zeros k') end.

Definition format_width (w n : nat) : string :=
  let s := decimal n in String.append (pad_zeros (w - String.length s)) s.

(** Modelled from the spec: [render_name(template, context)], the
    snapshot name of a template and a training step's context. *)
Fixpoint render_name (t : template) (c : step_context) : string :=
  match t with
  | [] => EmptyString
  | Lit s :: t' => String.append s (render_name t' c)
  | EpochField w :: t' => String.append (format_width w (epoch c)) (render_name t' c)
  end.

(** The two templates of the notebook: ["training_1/cp.ckpt"] and
    ["training_2/cp-{epoch:04d}.ckpt"] (names relative to their directory). *)
Definition rolling_template : template := [Lit "cp.ckpt"].
Definition epoch_template : template := [Lit "cp-"; EpochField 4; Lit ".ckpt"].

(** ** The checkpoint store

    Modelled from the spec: the [CheckpointStore] with its
    [CheckpointIndex] (snapshot name to sequence index and shard location,
    plus the "latest" pointer), its [RetentionPolicy] ([max_kept]), blob
    files written to a staging location, renamed to their final location
    after the flush, and the index update as the commit point. *)

Record entry := mk_entry { e_name : string; e_seq : nat; e_shard : nat }.

Record index := mk_index {
  entries : list entry;      (* ordered by sequence index *)
  latest : option string;
  next_seq : nat
}.

Record disk := mk_disk {
  d_policy : option positive;        (* max_kept of the RetentionPolicy *)
  d_writable : bool;                 (* storage available *)
  d_staged : list (nat * blob);      (* flushed, not yet renamed *)
  d_blobs : list (nat * blob);       (* blob files at their final location *)
  d_index : index
}.

Definition empty_index : index := mk_index [] None 1.

Definition empty_disk (pol : option positive) (w : bool) : disk :=
  mk_disk pol w [] [] empty_index.

Fixpoint get (l : nat) (fs : list (nat * blob)) : option blob :=
  match fs with
  | [] => None
  | (l', b) :: r => if l =? l' then Some b else get l r
  end.

Definition del (l : nat) (fs : list (nat * blob)) : list (nat * blob) :=
  filter (fun p => negb (fst p =? l)) fs.

Definition put (l : nat) (b : blob) (fs : list (nat * blob)) : list (nat * blob) :=
  (l, b) :: del l fs.

(** Storage operations, each atomic on the storage medium. *)
Inductive op :=
| Stage (l : nat) (b : blob)     (* write and flush the blob to staging *)
| Promote (l : nat)              (* rename staged blob to its final location *)
| CommitIndex (i : index)        (* replace the index file *)
| Remove (l : nat).              (* delete a blob file *)

Definition run_op (d : disk) (o : op) : disk :=
  match o with
  | Stage l b =>
      mk_disk (d_policy d) (d_writable d) (put l b (d_staged d)) (d_blobs d) (d_index d)
  | Promote l =>
      match get l (d_staged d) with
      | Some b =>
          mk_disk (d_policy d) (d_writable d) (del l (d_staged d))
                  (put l b (d_blobs d)) (d_index d)
      | None => d
      end
  | CommitIndex i =>
      mk_disk (d_policy d) (d_writable d) (d_staged d) (d_blobs d) i
  | Remove l =>
      mk_disk (d_policy d) (d_writable d) (d_staged d) (del l (d_blobs d)) (d_index d)
  end.

Definition run_ops (os : list op) (d : disk) : disk := fold_left run_op os d.

(** Modelled from the spec: [max_kept = K]: keep the K most recently created entries; returns the
    evicted entries and the kept ones. *)
Definition retain (k : option positive) (es : list entry) : list entry * list entry :=
  match k with
  | None => ([], es)
  | Some p =>
      let drop := List.length es - Pos.to_nat p in (firstn drop es, skipn drop es)
  end.

Definition same_name (n : string) (e : entry) : bool := String.eqb (e_name e) n.
Definition other_name (n : string) (e : entry) : bool := negb (same_name n e).

(** Modelled from the spec: the steps of [save] for name [n] and blob [b]: stage and flush the blob,
    rename it to a fresh shard, commit the new index (new entry appended,
    colliding entry replaced, oldest entries evicted), then remove the blob
    files no longer referenced. *)
Definition save_plan (d : disk) (n : string) (b : blob) : list op :=
  let i := d_index d in
  let s := next_seq i in
  let replaced := filter (same_name n) (entries i) in
  let others := filter (other_name n) (entries i) in
  let '(evicted, kept) := retain (d_policy d) (others ++ [mk_entry n s s]) in
  [Stage s b; Promote s; CommitIndex (mk_index kept (Some n) (S s))]
  ++ map (fun e => Remove (e_shard e)) (replaced ++ evicted).

Inductive ckpt_ref :=
| ByName (n : string)
| Latest.

Inductive error :=
| InvalidParameters
| IOFailure
| SnapshotNotFound (r : ckpt_ref)
| ArchitectureMismatch (diffs : list (string * option (list nat) * option (list nat))).

Inductive result (A : Type) :=
| Ok (a : A)
| Err (e : error).
Arguments Ok {A} a.
Arguments Err {A} e.

Definition valid_tensor (t : tensor) : bool :=
  forallb is_finite (data t) && (List.length (data t) =? prod_dims (shape t)).

Definition valid_params (P : params) : bool :=
  match P with
  | [] => false
  | _ => forallb (fun kt => valid_tensor (snd kt)) P
  end.

(** Modelled from the spec: [save(model, template, context)] of the
    checkpoint store; invalid parameters and unavailable storage fail
    before anything is written. *)
Definition save (d : disk) (tmpl : template) (ctx : step_context) (P : params)
    : result disk :=
  if negb (valid_params P) then Err InvalidParameters
  else if negb (d_writable d) then Err IOFailure
  else Ok (run_ops (save_plan d (render_name tmpl ctx) (serialize P)) d).

Definition find_entry (n : string) (es : list entry) : option entry :=
  find (same_name n) es.

Definition resolve (d : disk) (r : ckpt_ref) : option entry :=
  match r with
  | ByName n => find_entry n (entries (d_index d))
  | Latest =>
      match latest (d_index d) with
      | Some n => find_entry n (entries (d_index d))
      | None => None
      end
  end.

(** Modelled from the spec: [load(name)] and [load(latest)]: resolve
    the reference through the index, then read and decode the blob. *)
Definition load (d : disk) (r : ckpt_ref) : result params :=
  match resolve d r with
  | None => Err (SnapshotNotFound r)
  | Some e =>
      match get (e_shard e) (d_blobs d) with
      | Some b =>
          match deserialize b with
          | Some P => Ok P
          | None => Err IOFailure
          end
      | None => Err IOFailure
      end
  end.

(** Modelled from the spec: [list()]: snapshot metadata (name, sequence index), no blobs. *)
Definition list_snapshots (d : disk) : list (string * nat) :=
  map (fun e => (e_name e, e_seq e)) (entries (d_index d)).

Fixpoint last_opt {A} (l : list A) : option A :=
  match l with
  | [] => None
  | [x] => Some x
  | _ :: r => last_opt r
  end.

Definition delete_plan (d : disk) (n : string) : list op :=
  let i := d_index d in
  let gone := filter (same_name n) (entries i) in
  let kept := filter (other_name n) (entries i) in
  CommitIndex (mk_index kept (option_map e_name (last_opt kept)) (next_seq i))
  :: map (fun e => Remove (e_shard e)) gone.

(** Modelled from the spec: [delete(name)], a no-op on an absent
    name. *)
Definition delete (d : disk) (n : string) : disk :=
  match find_entry n (entries (d_index d)) with
  | None => d
  | Some _ => run_ops (delete_plan d n) d
  end.

(** ** Applying a snapshot to a model

    Modelled from the spec: the model exposes [get_parameters] (its
    parameter mapping) and [set_parameters]; [load] into a target checks
    the architecture signature (keys and shapes) before any value is
    applied. *)

Definition signature (P : params) : list (string * list nat) :=
  map (fun kt => (fst kt, shape (snd kt))) P.

Fixpoint lookup_key {A} (k : string) (l : list (string * A)) : option A :=
  match l with
  | [] => None
  | (k', a) :: r => if String.eqb k k' then Some a else lookup_key k r
  end.

Definition opt_shape_eqb (a b : option (list nat)) : bool :=
  match a, b with
  | Some x, Some y => if list_eq_dec Nat.eq_dec x y then true else false
  | None, None => true
  | _, _ => false
  end.

(** The keys whose shape differs between the blob and the target (a key
    missing on one side has shape [None] there). *)
Definition sig_diffs (src tgt : list (string * list nat))
    : list (string * option (list nat) * option (list nat)) :=
  flat_map (fun k =>
      let a := lookup_key k src in
      let b := lookup_key k tgt in
      if opt_shape_eqb a b then [] else [(k, a, b)])
    (map fst src ++ map fst tgt).

Definition set_parameters (P target : params) : params :=
  map (fun kt => match lookup_key (fst kt) P with
                 | Some t => (fst kt, t)
                 | None => kt
                 end) target.

(** Modelled from the spec: [set_parameters] behind the architecture
    check that [load] into a target model performs first. *)
Definition apply_weights (P target : params) : result unit * params :=
  match sig_diffs (signature P) (signature target) with
  | [] => (Ok tt, set_parameters P target)
  | ds => (Err (ArchitectureMismatch ds), target)
  end.

(** Modelled from the spec: [load] into a caller-supplied target
    model ([Model.load_weights] in the notebook). *)
Definition load_into (d : disk) (r : ckpt_ref) (target : params)
    : result unit * params :=
  match load d r with
  | Ok P => apply_weights P target
  | Err e => (Err e, target)
  end.

(** ** The whole system: store and model under training *)

Record sys := mk_sys { s_disk : disk; s_model : params }.

Inductive command :=
| CmdSave (tmpl : template) (ctx : step_context)
| CmdLoad (r : ckpt_ref)
| CmdDelete (n : string)
| CmdList.

Inductive response :=
| RUnit
| RList (l : list (string * nat))
| RErr (e : error).

(** Modelled from the spec: one API call on the store and the model
    under training. *)
Definition exec (s : sys) (c : command) : sys * response :=
  match c with
  | CmdSave t ctx =>
      match save (s_disk s) t ctx (s_model s) with
      | Ok d' => (mk_sys d' (s_model s), RUnit)
      | Err e => (s, RErr e)
      end
  | CmdLoad r =>
      match load_into (s_disk s) r (s_model s) with
      | (Ok _, m') => (mk_sys (s_disk s) m', RUnit)
      | (Err e, m') => (mk_sys (s_disk s) m', RErr e)
      end
  | CmdDelete n => (mk_sys (delete (s_disk s) n) (s_model s), RUnit)
  | CmdList => (s, RList (list_snapshots (s_disk s)))
  end.

(** ** Reachable store states

    From an empty store, through successful saves, deletions, changes of
    storage availability, and saves interrupted after any number of their
    steps (a crash). *)

Inductive reachable : disk -> Prop :=
| reach_init pol w : reachable (empty_disk pol w)
| reach_save d t c P d' : reachable d -> save d t c P = Ok d' -> reachable d'
| reach_delete d n : reachable d -> reachable (delete d n)
| reach_storage d w :
    reachable d ->
    reachable (mk_disk (d_policy d) w (d_staged d) (d_blobs d) (d_index d))
| reach_crash d n b k :
    reachable d -> reachable (run_ops (firstn k (save_plan d n b)) d).

(** Successive saves: the training loop saving payloads one after the
    other, stopping at the first failure. *)
Fixpoint save_all (d : disk) (ss : list (template * step_context * params))
    : result disk :=
  match ss with
  | [] => Ok d
  | (t, c, P) :: r =>
      match save d t c P with
      | Ok d' => save_all d' r
      | Err e => Err e
      end
  end.

(** ** The notebook's model: [create_model]

    [Sequential([Dense(512, relu, input_shape=(784,)), Dropout(0.2),
    Dense(10)])].  Kernels are initialised from a random source, biases to
    zero; the keys are the checkpoint keys of the layers with weights. *)

Inductive activation := Relu | Linear.

Inductive layer :=
| Dense (units : nat) (act : activation)
| Dropout (rate_percent : nat).

Definition notebook_layers : list layer := [Dense 512 Relu; Dropout 20; Dense 10 Linear].

Definition input_dim : nat := 784.

Definition weight_key (idx : nat) (w : string) : string :=
  String.append "layer_with_weights-" (String.append (decimal idx) (String.append "/" w)).

Fixpoint build_weights (rng : nat -> nat -> Z) (idx in_dim : nat) (ls : list layer)
    : params :=
  match ls with
  | [] => []
  | Dense u _ :: r =>
      (weight_key idx "kernel",
         mk_tensor [in_dim; u] (map (fun j => Finite (rng idx j)) (seq 0 (in_dim * u))))
      :: (weight_key idx "bias", mk_tensor [u] (repeat (Finite 0) u))
      :: build_weights rng (S idx) u r
  | Dropout _ :: r => build_weights rng idx in_dim r
  end.

Definition create_model (rng : nat -> nat -> Z) : params :=
  build_weights rng 0 input_dim notebook_layers.

Definition param_count (P : params) : N :=
  fold_right (fun kt acc =>
    (fold_right (fun n a => N.of_nat n * a) 1 (shape (snd kt)) + acc)%N) 0%N P.

(** The signature [build_weights] produces, and the parameter count of a
    signature. *)
Fixpoint layer_signature (idx in_dim : nat) (ls : list layer) : list (string * list nat) :=
  match ls with
  | [] => []
  | Dense u _ :: r =>
      (weight_key idx "kernel", [in_dim; u]) :: (weight_key idx "bias", [u])
      :: layer_signature (S idx) u r
  | Dropout _ :: r => layer_signature idx in_dim r
  end.

Definition signature_count (sg : list (string * list nat)) : N :=
  fold_right (fun ks acc => (fold_right (fun n a => N.of_nat n * a) 1 (snd ks) + acc)%N) 0%N sg.

(** Parameter count of a stack of layers, layer by layer: a [Dense u]
    on [in_dim] inputs has an [in_dim * u] kernel and a [u] bias; a
    [Dropout] has no weights and passes its input width on. *)
Fixpoint dense_param_total (in_dim : nat) (ls : list layer) : N :=
  match ls with
  | [] => 0%N
  | Dense u _ :: r =>
      (N.of_nat in_dim * N.of_nat u + N.of_nat u + dense_param_total u r)%N
  | Dropout _ :: r => dense_param_total in_dim r
  end.

(** ** Paths: [os.path.dirname]

    The notebook computes [checkpoint_dir = os.path.dirname(checkpoint_path)]
    for ["training_1/cp.ckpt"] and ["training_2/cp-{epoch:04d}.ckpt"].
    POSIX [dirname(p)]: [i = p.rfind('/') + 1; head = p[:i]]; a [head]
    that is not empty and not made only of ['/'] loses its trailing
    slashes. *)

Definition slash : ascii := "/"%char.

(** [s.rfind('/')], with [None] for Python's [-1]. *)
Fixpoint rfind_slash (s : string) : option nat :=
  match s with
  | EmptyString => None
  | String c s' =>
      match rfind_slash s' with
      | Some j => Some (S j)
      | None => if Ascii.eqb c slash then Some 0 else None
      end
  end.

(** [head == '/' * len(head)] *)
Fixpoint all_slash (s : string) : bool :=
  match s with
  | EmptyString => true
  | String c s' => Ascii.eqb c slash && all_slash s'
  end.

(** [s.rstrip('/')] *)
Fixpoint rstrip_slash (s : string) : string :=
  match s with
  | EmptyString => EmptyString
  | String c s' =>
      let r := rstrip_slash s' in
      if String.eqb r EmptyString && Ascii.eqb c slash then EmptyString else String c r
  end.

Definition dirname (p : string) : string :=
  let i := match rfind_slash p with Some j => S j | None => 0 end in
  let head := String.substring 0 i p in
  if negb (String.eqb head EmptyString) && negb (all_slash head)
  then rstrip_slash head else head.

(** The second checkpoint path of the notebook, as written and as the
    template its [str.format(epoch=...)] fills. *)
Definition checkpoint_path_2 : string := "training_2/cp-{epoch:04d}.ckpt".
Definition checkpoint_path_2_template : template :=
  [Lit "training_2/cp-"; EpochField 4; Lit ".ckpt"].

(** Decimal digit strings and their value (an [int(s)] restricted to
    strings of ASCII digits). *)
Definition is_digit (c : ascii) : bool :=
  (48 <=? nat_of_ascii c) && (nat_of_ascii c <=? 57).

Fixpoint is_digits (s : string) : bool :=
  match s with
  | EmptyString => true
  | String c s' => is_digit c && is_digits s'
  end.

Fixpoint digits_value (s : string) (a : nat) : nat :=
  match s with
  | EmptyString => a
  | String c s' => digits_value s' (a * 10 + (nat_of_ascii c - 48))
  end.

(** ** Data preparation: slicing and [reshape(-1, 28 * 28)]

    [a.reshape(-1, k)] of numpy on the elements [flat] of [a] in C order:
    the number of rows is inferred; [k = 0], or a size that [k] does not
    divide, raises [ValueError] ([None]). *)

Fixpoint chunk_rows {A} (k n : nat) (l : list A) : list (list A) :=
  match n with
  | O => []
  | S n' => firstn k l :: chunk_rows k n' (skipn k l)
  end.

Definition reshape_rows {A} (k : nat) (flat : list A) : option (list (list A)) :=
  if (k =? 0) || negb (List.length flat mod k =? 0) then None
  else Some (chunk_rows k (List.length flat / k) flat).



(** ** Observations and invariants of the store *)

(** The last [k] elements of a list. *)
Definition lastn {A} (k : nat) (l : list A) : list A := skipn (List.length l - k) l.

(** What [list()] and [load()] can observe of a store. *)
Definition same_view (d1 d2 : disk) : Prop :=
  list_snapshots d1 = list_snapshots d2 /\ forall r, load d1 r = load d2 r.

(** The index invariant: every shard location is the entry's sequence
    index and below the next one to be allocated, shard locations and
    names are unique, and the latest pointer names the last entry. *)
Definition Inv (d : disk) : Prop :=
  let i := d_index d in
  Forall (fun e => e_shard e = e_seq e /\ e_seq e < next_seq i) (entries i) /\
  NoDup (map e_shard (entries i)) /\
  NoDup (map e_name (entries i)) /\
  latest i = option_map e_name (last_opt (entries i)).

(** The names the saves of a training run render to, and a list without
    some names. *)
Definition saved_names (ss : list (template * step_context * params)) : list string :=
  map (fun x => match x with (t, c, _) => render_name t c end) ss.

Definition remove_name (n : string) (l : list string) : list string :=
  filter (fun x => negb (String.eqb x n)) l.

Definition remove_names (ns l : list string) : list string :=
  filter (fun x => negb (existsb (String.eqb x) ns)) l.

(** ** Sample inputs

    Small concrete stores and payloads, in the notebook's naming scheme. *)

Definition sample_params (z : Z) : params :=
  [("layer_with_weights-0/kernel"%string, mk_tensor [1; 2] [Finite z; Finite 7]);
   ("layer_with_weights-0/bias"%string, mk_tensor [2] [Finite 0; Finite 0])].

(** A model whose first layer is one unit wider than [sample_params]. *)
Definition wider_params : params :=
  [("layer_with_weights-0/kernel"%string, mk_tensor [1; 3] [Finite 1; Finite 1; Finite 1]);
   ("layer_with_weights-0/bias"%string, mk_tensor [3] [Finite 0; Finite 0; Finite 0])].

Definition store0 : disk := empty_disk (Some 2%positive) true.

Definition result_disk (r : result disk) : disk :=
  match r with Ok d => d | Err _ => store0 end.

Definition store_after (ss : list (template * step_context * params)) : disk :=
  result_disk (save_all store0 ss).

Definition epoch_saves (es : list nat) : list (template * step_context * params) :=
  map (fun e => (epoch_template, mk_ctx e, sample_params (Z.of_nat e))) es.

(** ** Serialization lemmas *)

Lemma dec_n_enc {A} (enc : A -> list Z) dec (l : list A) rest :
  Forall (fun a => forall r, dec (enc a ++ r) = Some (a, r)) l ->
  dec_n dec (List.length l) (flat_map enc l ++ rest) = Some (l, rest).
Proof.
  induction 1 as [|a l Ha Hl IH]; [reflexivity|].
  cbn [List.length flat_map dec_n]. rewrite <- app_assoc, Ha, IH. reflexivity.
Qed.

Lemma dec_list_enc {A} (enc : A -> list Z) dec (l : list A) rest :
  Forall (fun a => forall r, dec (enc a ++ r) = Some (a, r)) l ->
  dec_list dec (enc_list enc l ++ rest) = Some (l, rest).
Proof.
  intros H. unfold enc_list, dec_list. cbn [app].
  replace (Z.of_nat (List.length l) <? 0)%Z with false by (symmetry; apply Z.ltb_ge; lia).
  rewrite Nat2Z.id. now apply dec_n_enc.
Qed.

Lemma dec_num_enc x r : dec_num (enc_num x ++ r) = Some (x, r).
Proof. destruct x; reflexivity. Qed.

Lemma dec_nat_enc n r : dec_nat (enc_nat n ++ r) = Some (n, r).
Proof.
  unfold dec_nat, enc_nat. cbn [app].
  replace (Z.of_nat n <? 0)%Z with false by (symmetry; apply Z.ltb_ge; lia).
  now rewrite Nat2Z.id.
Qed.

Lemma dec_char_enc c r : dec_char (enc_char c ++ r) = Some (c, r).
Proof.
  unfold dec_char, enc_char. cbn [app].
  now rewrite Nat2Z.id, ascii_nat_embedding.
Qed.

Lemma all_forall {A} (P : A -> Prop) (l : list A) :
  (forall a, P a) -> Forall P l.
Proof. intros H. induction l; constructor; auto. Qed.

Lemma dec_key_enc k r : dec_key (enc_key k ++ r) = Some (k, r).
Proof.
  unfold dec_key, enc_key.
  rewrite dec_list_enc by (apply all_forall; intros; apply dec_char_enc).
  now rewrite string_of_list_ascii_of_string.
Qed.

Lemma dec_tensor_enc t r : dec_tensor (enc_tensor t ++ r) = Some (t, r).
Proof.
  unfold dec_tensor, enc_tensor. rewrite <- app_assoc.
  rewrite dec_list_enc by (apply all_forall; intros; apply dec_nat_enc).
  rewrite dec_list_enc by (apply all_forall; intros; apply dec_num_enc).
  now destruct t.
Qed.

Lemma dec_entry_enc kt r : dec_entry (enc_entry kt ++ r) = Some (kt, r).
Proof.
  destruct kt as [k t]. unfold dec_entry, enc_entry. cbn [fst snd].
  rewrite <- app_assoc, dec_key_enc, dec_tensor_enc. reflexivity.
Qed.

Lemma deserialize_serialize P : deserialize (serialize P) = Some P.
Proof.
  unfold deserialize, serialize.
  rewrite <- (app_nil_r (enc_list enc_entry P)).
  rewrite dec_list_enc by (apply all_forall; intros; apply dec_entry_enc).
  reflexivity.
Qed.

(** ** Storage lemmas *)

Lemma get_del_eq l fs : get l (del l fs) = None.
Proof.
  induction fs as [|[l' b] fs IH]; [reflexivity|]. unfold del in *; cbn.
  destruct (l' =? l) eqn:E; cbn; [exact IH|].
  rewrite Nat.eqb_sym, E. exact IH.
Qed.

Lemma get_del_neq l l' fs : l <> l' -> get l (del l' fs) = get l fs.
Proof.
  intros Hne. induction fs as [|[x b] fs IH]; [reflexivity|]. unfold del in *; cbn.
  destruct (x =? l') eqn:E; cbn.
  - apply Nat.eqb_eq in E; subst x. rewrite IH.
    replace (l =? l') with false by (symmetry; apply Nat.eqb_neq; exact Hne). reflexivity.
  - rewrite IH. reflexivity.
Qed.

Lemma get_put_eq l b fs : get l (put l b fs) = Some b.
Proof. cbn. now rewrite Nat.eqb_refl. Qed.

Lemma get_put_neq l l' b fs : l <> l' -> get l (put l' b fs) = get l fs.
Proof.
  intros Hne. cbn.
  replace (l =? l') with false by (symmetry; apply Nat.eqb_neq; exact Hne).
  now apply get_del_neq.
Qed.

Lemma run_ops_app os1 os2 d : run_ops (os1 ++ os2) d = run_ops os2 (run_ops os1 d).
Proof. unfold run_ops. apply fold_left_app. Qed.

(** Removing blob files touches nothing but the blob files. *)
Lemma run_removes d (es : list entry) :
  let d' := run_ops (map (fun e => Remove (e_shard e)) es) d in
  d_policy d' = d_policy d /\ d_writable d' = d_writable d /\
  d_staged d' = d_staged d /\ d_index d' = d_index d /\
  forall l, get l (d_blobs d') =
            if existsb (fun e => e_shard e =? l) es then None else get l (d_blobs d).
Proof.
  revert d. induction es as [|e es IH]; intros d; [cbn; auto|].
  cbn [map]. unfold run_ops. cbn [fold_left]. fold (run_ops (map (fun e => Remove (e_shard e)) es)).
  destruct (IH (run_op d (Remove (e_shard e)))) as (H1 & H2 & H3 & H4 & H5).
  cbn in H1, H2, H3, H4. repeat split; auto.
  intros l. rewrite H5. cbn [existsb d_blobs run_op].
  destruct (e_shard e =? l) eqn:E; cbn [orb].
  - destruct (existsb _ es); [reflexivity|].
    apply Nat.eqb_eq in E; subst l. apply get_del_eq.
  - destruct (existsb _ es); [reflexivity|].
    apply get_del_neq. apply Nat.eqb_neq in E. congruence.
Qed.

Lemma retain_snoc pol xs (x : entry) :
  exists ev ys, retain pol (xs ++ [x]) = (ev, ys ++ [x]) /\ xs = ev ++ ys.
Proof.
  destruct pol as [p|]; cbn.
  - set (k := List.length (xs ++ [x]) - Pos.to_nat p).
    assert (Hk : k <= List.length xs)
      by (unfold k; rewrite length_app; cbn; pose proof (Pos2Nat.is_pos p); lia).
    exists (firstn k xs), (skipn k xs). split.
    + rewrite firstn_app, skipn_app.
      replace (k - List.length xs) with 0 by lia. cbn. now rewrite app_nil_r.
    + symmetry. apply firstn_skipn.
  - exists [], xs. auto.
Qed.

Section SavePlan.

Variables (d : disk) (n : string) (b : blob).

Let s := next_seq (d_index d).
Let es := entries (d_index d).
Let new := mk_entry n s s.

(** The state after all steps of [save_plan]. *)
Lemma run_save_plan :
  exists ev ys,
    retain (d_policy d) (filter (other_name n) es ++ [new]) = (ev, ys ++ [new]) /\
    filter (other_name n) es = ev ++ ys /\
    let d' := run_ops (save_plan d n b) d in
    d_policy d' = d_policy d /\ d_writable d' = d_writable d /\
    d_index d' = mk_index (ys ++ [new]) (Some n) (S s) /\
    forall l, get l (d_blobs d') =
      if existsb (fun e => e_shard e =? l) (filter (same_name n) es ++ ev) then None
      else if l =? s then Some b else get l (d_blobs d).
Proof.
  destruct (retain_snoc (d_policy d) (filter (other_name n) es) new)
    as (ev & ys & Hr & Hs).
  exists ev, ys. split; [exact Hr|]. split; [exact Hs|].
  unfold save_plan. fold s es. fold new. rewrite Hr.
  rewrite run_ops_app.
  set (I := mk_index (ys ++ [new]) (Some n) (S s)).
  assert (Hpre : run_ops [Stage s b; Promote s; CommitIndex I] d =
                 mk_disk (d_policy d) (d_writable d) (del s (put s b (d_staged d)))
                         (put s b (d_blobs d)) I).
  { unfold run_ops. cbn [fold_left run_op d_staged]. now rewrite get_put_eq. }
  rewrite Hpre.
  destruct (run_removes (mk_disk (d_policy d) (d_writable d) (del s (put s b (d_staged d)))
                                 (put s b (d_blobs d)) I)
              (filter (same_name n) es ++ ev)) as (H1 & H2 & H3 & H4 & H5).
  cbn in H1, H2, H4.
  repeat split; auto.
  intros l. rewrite H5. cbn [d_blobs].
  destruct (existsb _ _); [reflexivity|].
  destruct (l =? s) eqn:E.
  - apply Nat.eqb_eq in E; subst l. apply get_put_eq.
  - apply get_put_neq. now apply Nat.eqb_neq.
Qed.

(** A save interrupted after [k] of its steps. *)
Lemma save_prefix ev ys k :
  retain (d_policy d) (filter (other_name n) es ++ [new]) = (ev, ys ++ [new]) ->
  let d' := run_ops (firstn k (save_plan d n b)) d in
  (k <= 2 -> d_index d' = d_index d /\
             forall l, l <> s -> get l (d_blobs d') = get l (d_blobs d)) /\
  (3 <= k -> d_index d' = mk_index (ys ++ [new]) (Some n) (S s) /\
             forall l, existsb (fun e => e_shard e =? l) (filter (same_name n) es ++ ev) = false ->
               get l (d_blobs d') = if l =? s then Some b else get l (d_blobs d)).
Proof.
  intros Hr. unfold save_plan. fold s es. fold new. rewrite Hr.
  set (I := mk_index (ys ++ [new]) (Some n) (S s)).
  set (rm := map (fun e => Remove (e_shard e)) (filter (same_name n) es ++ ev)).
  destruct k as [|[|[|k]]]; cbn zeta; split; intros Hk; try lia.
  - split; [reflexivity|]. intros; reflexivity.
  - split; [reflexivity|]. intros; reflexivity.
  - unfold run_ops. cbn [firstn app fold_left run_op d_staged d_index d_blobs].
    rewrite get_put_eq. split; [reflexivity|]. intros l Hl. cbn. now apply get_put_neq.
  - change (firstn (S (S (S k))) ([Stage s b; Promote s; CommitIndex I] ++ rm))
      with ([Stage s b; Promote s; CommitIndex I] ++ firstn k rm).
    rewrite run_ops_app.
    assert (Hpre : run_ops [Stage s b; Promote s; CommitIndex I] d =
                   mk_disk (d_policy d) (d_writable d) (del s (put s b (d_staged d)))
                           (put s b (d_blobs d)) I).
    { unfold run_ops. cbn [fold_left run_op d_staged]. now rewrite get_put_eq. }
    rewrite Hpre. unfold rm. rewrite firstn_map.
    destruct (run_removes (mk_disk (d_policy d) (d_writable d) (del s (put s b (d_staged d)))
                                   (put s b (d_blobs d)) I)
                (firstn k (filter (same_name n) es ++ ev))) as (H1 & H2 & H3 & H4 & H5).
    split; [exact H4|]. intros l Hl. rewrite H5.
    assert (Hf : existsb (fun e => e_shard e =? l) (firstn k (filter (same_name n) es ++ ev)) = false).
    { apply Bool.not_true_iff_false. intros Hx. apply existsb_exists in Hx as (e & He & Hel).
      apply Bool.not_true_iff_false in Hl. apply Hl. apply existsb_exists.
      exists e. split; auto. rewrite <- (firstn_skipn k (_ ++ ev)). apply in_or_app; auto. }
    rewrite Hf. cbn [d_blobs]. destruct (l =? s) eqn:E.
    + apply Nat.eqb_eq in E; subst l. apply get_put_eq.
    + apply get_put_neq. now apply Nat.eqb_neq.
Qed.

End SavePlan.

(** ** List lemmas *)

Lemma NoDup_map_filter {A B} (f : A -> B) (p : A -> bool) l :
  NoDup (map f l) -> NoDup (map f (filter p l)).
Proof.
  induction l as [|a l IH]; cbn; intros H; [constructor|].
  inversion H as [|x y Hn Hd]; subst.
  destruct (p a); cbn; auto.
  constructor; auto. intros Hin. apply Hn.
  apply in_map_iff in Hin as (x & Hx & Hx'). apply filter_In in Hx' as [Hx' _].
  rewrite <- Hx. now apply in_map.
Qed.

Lemma Forall_filter_sub {A} (P : A -> Prop) (p : A -> bool) l :
  Forall P l -> Forall P (filter p l).
Proof.
  rewrite !Forall_forall. intros H x Hx. apply filter_In in Hx. apply H, Hx.
Qed.

Lemma last_opt_snoc {A} (l : list A) x : last_opt (l ++ [x]) = Some x.
Proof.
  induction l as [|a l IH]; [reflexivity|].
  cbn [app]. destruct l; [reflexivity|]. exact IH.
Qed.

Lemma last_opt_In {A} (l : list A) x : last_opt l = Some x -> In x l.
Proof.
  induction l as [|a l IH]; cbn; [discriminate|].
  destruct l as [|b l']; [intros [=]; auto|]. intros H. right. now apply IH.
Qed.

Lemma filter_partition {A} (p : A -> bool) l :
  Permutation l (filter p l ++ filter (fun x => negb (p x)) l).
Proof.
  induction l as [|a l IH]; [constructor|]. cbn.
  destruct (p a); cbn.
  - now constructor.
  - eapply perm_trans; [apply perm_skip, IH|]. apply Permutation_middle.
Qed.

Lemma NoDup_app_disj {A} (l1 l2 : list A) x :
  NoDup (l1 ++ l2) -> In x l1 -> In x l2 -> False.
Proof.
  induction l1 as [|a l1 IH]; cbn; [tauto|].
  intros H [Hx|Hx] Hx2; inversion H; subst.
  - apply H2. apply in_or_app; auto.
  - eauto.
Qed.

Lemma filter_none {A} (p : A -> bool) l :
  Forall (fun y => p y = false) l -> filter p l = [].
Proof. induction 1 as [|y l Hy _ IH]; cbn; [reflexivity|]. now rewrite Hy. Qed.

Lemma find_snoc_new {A} (p : A -> bool) ys x :
  Forall (fun y => p y = false) ys -> p x = true -> find p (ys ++ [x]) = Some x.
Proof.
  induction 1 as [|y ys Hy _ IH]; cbn; intros Hx; [now rewrite Hx|].
  rewrite Hy. now apply IH.
Qed.

(** ** The index invariant is preserved *)

Lemma Inv_same_index d1 d2 : d_index d1 = d_index d2 -> Inv d1 -> Inv d2.
Proof. unfold Inv. intros ->. auto. Qed.

Lemma in_kept_entries es n ev ys e :
  filter (other_name n) es = ev ++ ys -> In e ys -> In e es /\ e_name e <> n.
Proof.
  intros Hs He. assert (Hin : In e (filter (other_name n) es))
    by (rewrite Hs; apply in_or_app; auto).
  apply filter_In in Hin as [Hin Ho]. split; auto.
  unfold other_name, same_name in Ho. apply negb_true_iff, String.eqb_neq in Ho. exact Ho.
Qed.

Lemma Inv_after_save d n ev ys d' :
  Inv d ->
  filter (other_name n) (entries (d_index d)) = ev ++ ys ->
  d_index d' = mk_index (ys ++ [mk_entry n (next_seq (d_index d)) (next_seq (d_index d))])
                        (Some n) (S (next_seq (d_index d))) ->
  Inv d'.
Proof.
  intros (HF & HS & HN & HL) Hs Hi. unfold Inv. rewrite Hi. cbn [entries latest next_seq].
  set (s := next_seq (d_index d)) in *.
  set (es := entries (d_index d)) in *.
  rewrite Forall_forall in HF.
  assert (Hys : forall e, In e ys -> In e es /\ e_name e <> n)
    by (intros e; now apply in_kept_entries with (ev := ev)).
  repeat split.
  - apply Forall_app. split.
    + apply Forall_forall. intros e He. destruct (Hys e He) as [Hes _].
      destruct (HF e Hes). split; [auto|lia].
    + repeat constructor; cbn; lia.
  - rewrite map_app. apply NoDup_app.
    + apply NoDup_map_filter with (p := other_name n) in HS. fold es in HS.
      rewrite Hs, map_app in HS. now apply NoDup_app_remove_l in HS.
    + repeat constructor. intros [].
    + intros a Ha [Heq|[]]. apply in_map_iff in Ha as (e & <- & He).
      destruct (Hys e He) as [Hes _]. destruct (HF e Hes). cbn in Heq. lia.
  - rewrite map_app. apply NoDup_app.
    + apply NoDup_map_filter with (p := other_name n) in HN. fold es in HN.
      rewrite Hs, map_app in HN. now apply NoDup_app_remove_l in HN.
    + repeat constructor. intros [].
    + intros a Ha [Heq|[]]. apply in_map_iff in Ha as (e & <- & He).
      destruct (Hys e He) as [_ Hne]. cbn in Heq. congruence.
  - now rewrite last_opt_snoc.
Qed.

Lemma Inv_save_plan d n b : Inv d -> Inv (run_ops (save_plan d n b) d).
Proof.
  intros HI. destruct (run_save_plan d n b) as (ev & ys & _ & Hs & _ & _ & Hi & _).
  eapply Inv_after_save; eauto.
Qed.

Lemma Inv_save_prefix d n b k : Inv d -> Inv (run_ops (firstn k (save_plan d n b)) d).
Proof.
  intros HI. destruct (run_save_plan d n b) as (ev & ys & Hr & Hs & _).
  destruct (save_prefix d n b ev ys k Hr) as [Hearly Hlate].
  destruct (Nat.le_gt_cases k 2) as [Hk|Hk].
  - destruct (Hearly Hk) as [Hi _]. eapply Inv_same_index; [|exact HI]. now rewrite Hi.
  - destruct (Hlate ltac:(lia)) as [Hi _]. eapply Inv_after_save; eauto.
Qed.

Section DeletePlan.

Variables (d : disk) (n : string).

Let es := entries (d_index d).

Lemma run_delete_plan :
  let d' := run_ops (delete_plan d n) d in
  d_policy d' = d_policy d /\ d_writable d' = d_writable d /\
  d_index d' = mk_index (filter (other_name n) es)
                        (option_map e_name (last_opt (filter (other_name n) es)))
                        (next_seq (d_index d)) /\
  forall l, get l (d_blobs d') =
    if existsb (fun e => e_shard e =? l) (filter (same_name n) es) then None
    else get l (d_blobs d).
Proof.
  unfold delete_plan. fold es.
  change (CommitIndex ?i :: ?rm) with ([CommitIndex i] ++ rm). rewrite run_ops_app.
  set (I := mk_index (filter (other_name n) es)
                     (option_map e_name (last_opt (filter (other_name n) es)))
                     (next_seq (d_index d))).
  destruct (run_removes (run_ops [CommitIndex I] d) (filter (same_name n) es))
    as (H1 & H2 & H3 & H4 & H5).
  cbn in H1, H2, H4, H5. repeat split; auto.
Qed.

Lemma Inv_delete : Inv d -> Inv (delete d n).
Proof.
  intros (HF & HS & HN & HL). unfold delete.
  destruct (find_entry n (entries (d_index d))); [|now repeat split].
  destruct run_delete_plan as (_ & _ & Hi & _). unfold Inv. rewrite Hi.
  cbn [entries latest next_seq]. fold es in HF, HS, HN.
  repeat split.
  - now apply Forall_filter_sub.
  - now apply NoDup_map_filter.
  - now apply NoDup_map_filter.
Qed.

End DeletePlan.

Lemma Inv_empty pol w : Inv (empty_disk pol w).
Proof. repeat constructor. Qed.

Lemma reachable_Inv d : reachable d -> Inv d.
Proof.
  induction 1 as [pol w|d t c P d' _ IH Hsave|d n _ IH|d w _ IH|d n b k _ IH].
  - apply Inv_empty.
  - unfold save in Hsave.
    destruct (negb (valid_params P)); [discriminate|].
    destruct (negb (d_writable d)); [discriminate|].
    injection Hsave as <-. now apply Inv_save_plan.
  - now apply Inv_delete.
  - exact IH.
  - now apply Inv_save_prefix.
Qed.

(** ** Loading after a save *)

Lemma kept_not_named es n ev ys :
  filter (other_name n) es = ev ++ ys -> Forall (fun y => same_name n y = false) ys.
Proof.
  intros Hs. apply Forall_forall. intros e He.
  destruct (in_kept_entries es n ev ys e Hs He) as [_ Hne].
  unfold same_name. now apply String.eqb_neq.
Qed.

Lemma removed_shards_old d n ev ys :
  Inv d ->
  filter (other_name n) (entries (d_index d)) = ev ++ ys ->
  existsb (fun e => e_shard e =? next_seq (d_index d))
          (filter (same_name n) (entries (d_index d)) ++ ev) = false.
Proof.
  intros (HF & _) Hs. rewrite Forall_forall in HF.
  apply Bool.not_true_iff_false. intros Hx.
  apply existsb_exists in Hx as (e & He & Heq). apply Nat.eqb_eq in Heq.
  assert (Hes : In e (entries (d_index d))).
  { apply in_app_or in He as [He|He].
    - now apply filter_In in He.
    - assert (Hin : In e (filter (other_name n) (entries (d_index d))))
        by (rewrite Hs; apply in_or_app; auto).
      now apply filter_In in Hin. }
  destruct (HF e Hes). lia.
Qed.

(** After all steps of a save of blob [b] under [n], both [n] and the
    latest pointer resolve to the new entry, whose shard holds [b]. *)
Lemma resolve_after_save_plan d n b :
  Inv d ->
  let d' := run_ops (save_plan d n b) d in
  let e := mk_entry n (next_seq (d_index d)) (next_seq (d_index d)) in
  resolve d' (ByName n) = Some e /\ resolve d' Latest = Some e /\
  get (e_shard e) (d_blobs d') = Some b.
Proof.
  intros HI. destruct (run_save_plan d n b) as (ev & ys & _ & Hs & _ & _ & Hi & Hb).
  cbn zeta. unfold resolve, find_entry. rewrite Hi. cbn [entries latest e_shard].
  assert (Hf : find (same_name n) (ys ++ [mk_entry n (next_seq (d_index d)) (next_seq (d_index d))])
               = Some (mk_entry n (next_seq (d_index d)) (next_seq (d_index d)))).
  { apply find_snoc_new; [eapply kept_not_named; eauto|]. apply String.eqb_refl. }
  rewrite Hf. repeat split.
  rewrite Hb, (removed_shards_old d n ev ys HI Hs), Nat.eqb_refl. reflexivity.
Qed.

Lemma save_Ok_inv d t c P d' :
  save d t c P = Ok d' ->
  valid_params P = true /\ d_writable d = true /\
  d' = run_ops (save_plan d (render_name t c) (serialize P)) d.
Proof.
  unfold save. destruct (valid_params P), (d_writable d); cbn; intros H;
    try discriminate. injection H as <-. auto.
Qed.

Lemma load_after_save d t c P d' :
  Inv d -> save d t c P = Ok d' ->
  load d' (ByName (render_name t c)) = Ok P /\ load d' Latest = Ok P.
Proof.
  intros HI Hsave. apply save_Ok_inv in Hsave as (_ & _ & ->).
  destruct (resolve_after_save_plan d (render_name t c) (serialize P) HI) as (H1 & H2 & H3).
  unfold load. rewrite H1, H2, H3, deserialize_serialize. auto.
Qed.

Lemma save_next_seq d t c P d' :
  save d t c P = Ok d' -> next_seq (d_index d') = S (next_seq (d_index d)).
Proof.
  intros Hsave. apply save_Ok_inv in Hsave as (_ & _ & ->).
  destruct (run_save_plan d (render_name t c) (serialize P)) as (ev & ys & _ & _ & _ & _ & Hi & _).
  now rewrite Hi.
Qed.

Lemma save_all_app d ss x :
  save_all d (ss ++ [x]) =
  match save_all d ss with Ok d1 => save_all d1 [x] | Err e => Err e end.
Proof.
  revert d. induction ss as [|[[t c] P] ss IH]; intros d; [reflexivity|].
  cbn [app save_all]. destruct (save d t c P); [apply IH|reflexivity].
Qed.

Lemma save_all_reachable d ss d' :
  reachable d -> save_all d ss = Ok d' -> reachable d'.
Proof.
  revert d. induction ss as [|[[t c] P] ss IH]; intros d Hr; cbn.
  - now intros [= <-].
  - destruct (save d t c P) as [d1|] eqn:E; [|discriminate].
    apply IH. now apply reach_save with d t c P.
Qed.

Lemma save_all_next_seq d ss d' :
  save_all d ss = Ok d' -> next_seq (d_index d') = next_seq (d_index d) + List.length ss.
Proof.
  revert d. induction ss as [|[[t c] P] ss IH]; intros d; cbn.
  - intros [= <-]. lia.
  - destruct (save d t c P) as [d1|] eqn:E; [|discriminate].
    intros H. rewrite (IH _ H), (save_next_seq _ _ _ _ _ E). lia.
Qed.

Lemma find_filter_other n l : find_entry n (filter (other_name n) l) = None.
Proof.
  unfold find_entry. induction l as [|e l IH]; [reflexivity|]. cbn.
  unfold other_name. destruct (same_name n e) eqn:E; cbn; [exact IH|].
  now rewrite E.
Qed.

Lemma delete_twice d n : delete (delete d n) n = delete d n.
Proof.
  destruct (find_entry n (entries (d_index d))) eqn:E.
  - assert (Hd : delete d n = run_ops (delete_plan d n) d) by (unfold delete; now rewrite E).
    rewrite Hd. destruct (run_delete_plan d n) as (_ & _ & Hi & _).
    unfold delete at 1. rewrite Hi. cbn [entries]. now rewrite find_filter_other.
  - assert (Hd : delete d n = d) by (unfold delete; now rewrite E).
    now rewrite !Hd.
Qed.

(** ** What observers see *)

Lemma resolve_same_index d1 d2 r : d_index d1 = d_index d2 -> resolve d1 r = resolve d2 r.
Proof. intros H. destruct r; unfold resolve; now rewrite H. Qed.

Lemma resolve_In d r e : resolve d r = Some e -> In e (entries (d_index d)).
Proof.
  unfold resolve, find_entry. destruct r as [n|].
  - intros H. now apply find_some in H.
  - destruct (latest (d_index d)); [|discriminate]. intros H. now apply find_some in H.
Qed.

Lemma same_view_of d1 d2 :
  d_index d1 = d_index d2 ->
  (forall e, In e (entries (d_index d1)) -> get (e_shard e) (d_blobs d1) = get (e_shard e) (d_blobs d2)) ->
  same_view d1 d2.
Proof.
  intros Hi Hb. split.
  - unfold list_snapshots. now rewrite Hi.
  - intros r. unfold load. rewrite <- (resolve_same_index d1 d2 r Hi).
    destruct (resolve d1 r) as [e|] eqn:E; [|reflexivity].
    rewrite (Hb e (resolve_In _ _ _ E)). reflexivity.
Qed.

Lemma kept_shards_not_removed d n ev ys e :
  Inv d ->
  filter (other_name n) (entries (d_index d)) = ev ++ ys -> In e ys ->
  existsb (fun r => e_shard r =? e_shard e)
          (filter (same_name n) (entries (d_index d)) ++ ev) = false.
Proof.
  intros (_ & HS & _) Hs He.
  set (es := entries (d_index d)) in *.
  assert (Hnd : NoDup (map e_shard ((filter (same_name n) es ++ ev) ++ ys))).
  { rewrite <- app_assoc, <- Hs. eapply Permutation_NoDup; [|exact HS].
    apply Permutation_map. apply (filter_partition (same_name n)). }
  rewrite map_app in Hnd.
  apply Bool.not_true_iff_false. intros Hx. apply existsb_exists in Hx as (r & Hr & Heq).
  apply Nat.eqb_eq in Heq.
  apply (NoDup_app_disj _ _ (e_shard e) Hnd).
  - rewrite <- Heq. now apply in_map.
  - now apply in_map.
Qed.

(** Each prefix of a save shows either the store before or the store after. *)
Lemma save_prefix_view d n b k :
  Inv d ->
  let d' := run_ops (firstn k (save_plan d n b)) d in
  (k <= 2 -> same_view d' d) /\ (3 <= k -> same_view d' (run_ops (save_plan d n b) d)).
Proof.
  intros HI. destruct (run_save_plan d n b) as (ev & ys & Hr & Hs & _ & _ & Hi & Hb).
  destruct (save_prefix d n b ev ys k Hr) as [Hearly Hlate]. cbn zeta. split.
  - intros Hk. destruct (Hearly Hk) as [Hi' Hb']. apply same_view_of; [exact Hi'|].
    intros e He. rewrite Hi' in He. apply Hb'.
    destruct HI as (HF & _). rewrite Forall_forall in HF. destruct (HF e He). lia.
  - intros Hk. destruct (Hlate Hk) as [Hi' Hb']. apply same_view_of; [now rewrite Hi, Hi'|].
    intros e He. rewrite Hi' in He. cbn [entries] in He.
    assert (Hnr : existsb (fun r => e_shard r =? e_shard e)
                          (filter (same_name n) (entries (d_index d)) ++ ev) = false).
    { apply in_app_or in He as [He|[<-|[]]].
      - eapply kept_shards_not_removed; eauto.
      - cbn [e_shard]. apply (removed_shards_old d n ev ys HI Hs). }
    specialize (Hb' (e_shard e) Hnr). rewrite Hb', Hb, Hnr. reflexivity.
Qed.

(** ** Retention over a run of saves *)

Lemma lastn_snoc {A} m (l : list A) x :
  1 <= m -> lastn m (l ++ [x]) = lastn (m - 1) l ++ [x].
Proof.
  intros Hm. unfold lastn. rewrite length_app, skipn_app. cbn [List.length].
  replace (List.length l + 1 - m - List.length l) with 0 by lia.
  now replace (List.length l + 1 - m) with (List.length l - (m - 1)) by lia.
Qed.

Lemma lastn_app_long {A} m (l1 l2 : list A) :
  m <= List.length l2 -> lastn m (l1 ++ l2) = lastn m l2.
Proof.
  intros Hm. unfold lastn. rewrite length_app, skipn_app.
  rewrite skipn_all2 by lia. cbn.
  now replace (List.length l1 + List.length l2 - m - List.length l1)
    with (List.length l2 - m) by lia.
Qed.

Lemma length_lastn {A} m (l : list A) : List.length (lastn m l) = Nat.min m (List.length l).
Proof. unfold lastn. rewrite length_skipn. lia. Qed.

Lemma filter_all {A} (f : A -> bool) l :
  (forall x, In x l -> f x = true) -> filter f l = l.
Proof.
  induction l as [|x l IH]; cbn; intros H; [reflexivity|].
  rewrite H by auto. f_equal. apply IH. auto.
Qed.

Lemma remove_name_length n l :
  NoDup l -> List.length l <= S (List.length (remove_name n l)).
Proof.
  unfold remove_name. induction 1 as [|x l Hx Hl IH]; cbn; [lia|].
  destruct (String.eqb x n) eqn:E; cbn; [|lia].
  apply String.eqb_eq in E; subst x.
  rewrite filter_all; [lia|].
  intros y Hy. apply negb_true_iff, String.eqb_neq. intros ->. contradiction.
Qed.

Lemma names_after_save d K t c P d' :
  d_policy d = Some K -> save d t c P = Ok d' ->
  map e_name (entries (d_index d')) =
  lastn (Pos.to_nat K) (remove_name (render_name t c) (map e_name (entries (d_index d)))
                        ++ [render_name t c]) /\
  d_policy d' = Some K.
Proof.
  intros Hp Hsave. apply save_Ok_inv in Hsave as (_ & _ & ->).
  set (n := render_name t c).
  destruct (run_save_plan d n (serialize P)) as (ev & ys & Hr & _ & Hpol & _ & Hi & _).
  rewrite Hi, Hpol. split; [|exact Hp]. cbn [entries].
  rewrite Hp in Hr. cbn in Hr. injection Hr as _ Hk. rewrite <- Hk.
  unfold lastn, remove_name.
  set (new := mk_entry n (next_seq (d_index d)) (next_seq (d_index d))).
  replace (filter (fun x => negb (String.eqb x n)) (map e_name (entries (d_index d))) ++ [n])
    with (map e_name (filter (other_name n) (entries (d_index d)) ++ [new]))
    by (now rewrite map_app, filter_map_swap).
  now rewrite skipn_map, length_map.
Qed.

Lemma lastn_remove_absorb K W n :
  1 <= K -> NoDup W ->
  lastn K (remove_name n (lastn K W) ++ [n]) = lastn K (remove_name n W ++ [n]).
Proof.
  intros HK HW. rewrite !lastn_snoc by exact HK. f_equal.
  destruct (Nat.le_gt_cases (List.length W) K) as [Hle|Hgt].
  - unfold lastn at 2. now replace (List.length W - K) with 0 by lia.
  - rewrite <- (firstn_skipn (List.length W - K) W) at 2.
    fold (lastn K W). unfold remove_name at 2. rewrite filter_app. fold (remove_name n (lastn K W)).
    rewrite lastn_app_long; [reflexivity|].
    assert (Hnd : NoDup (lastn K W)).
    { unfold lastn. rewrite <- (firstn_skipn (List.length W - K) W) in HW.
      now apply NoDup_app_remove_l in HW. }
    pose proof (remove_name_length n _ Hnd). rewrite length_lastn in H. lia.
Qed.

Lemma remove_names_cons n ns W :
  remove_names (n :: ns) W = remove_names ns (remove_name n W).
Proof.
  unfold remove_names, remove_name. induction W as [|x W IH]; [reflexivity|].
  cbn. destruct (String.eqb x n); cbn; [exact IH|].
  destruct (existsb (String.eqb x) ns); cbn; [exact IH|]. now f_equal.
Qed.

Lemma remove_names_absent ns l :
  Forall (fun x => ~ In x ns) l -> remove_names ns l = l.
Proof.
  unfold remove_names. intros H. apply filter_all. intros x Hx.
  rewrite Forall_forall in H. apply negb_true_iff, Bool.not_true_iff_false.
  intros Hex. apply existsb_exists in Hex as (y & Hy & Heq).
  apply String.eqb_eq in Heq. subst y. exact (H x Hx Hy).
Qed.

Lemma NoDup_remove_snoc n W : NoDup W -> NoDup (remove_name n W ++ [n]).
Proof.
  intros HW. apply NoDup_app.
  - now apply NoDup_filter.
  - repeat constructor. intros [].
  - intros a Ha [<-|[]]. unfold remove_name in Ha. apply filter_In in Ha as [_ Ha].
    now rewrite String.eqb_refl in Ha.
Qed.

(** A run of saves with distinct names, from a store whose names behave as
    [W] under the retention rule, keeps the last [K] of
    [W] (minus the saved names) followed by the saved names. *)
Lemma names_after_save_all K ss : forall x d d' W,
  Inv d -> d_policy d = Some K -> NoDup W ->
  (forall n, lastn (Pos.to_nat K) (remove_name n (map e_name (entries (d_index d))) ++ [n])
             = lastn (Pos.to_nat K) (remove_name n W ++ [n])) ->
  NoDup (saved_names (x :: ss)) ->
  save_all d (x :: ss) = Ok d' ->
  map e_name (entries (d_index d')) =
  lastn (Pos.to_nat K) (remove_names (saved_names (x :: ss)) W ++ saved_names (x :: ss)).
Proof.
  induction ss as [|y ss IH]; intros [[t c] P] d d' W HI Hp HW HB Hnd Hall.
  - cbn [save_all] in Hall. destruct (save d t c P) as [d1|] eqn:E; [|discriminate].
    injection Hall as <-. destruct (names_after_save _ _ _ _ _ _ Hp E) as [Hn _].
    rewrite Hn, HB. cbn [saved_names map]. rewrite remove_names_cons.
    now rewrite (remove_names_absent []) by (apply Forall_forall; intros ? ? []).
  - cbn [save_all] in Hall. destruct (save d t c P) as [d1|] eqn:E; [|discriminate].
    destruct (names_after_save _ _ _ _ _ _ Hp E) as [Hn Hp1].
    set (n := render_name t c) in *.
    assert (HI1 : Inv d1).
    { apply save_Ok_inv in E as (_ & _ & ->). now apply Inv_save_plan. }
    change (saved_names ((t, c, P) :: y :: ss)) with (n :: saved_names (y :: ss)) in *.
    inversion Hnd as [|? ? Hnin Hnd']; subst.
    specialize (IH y d1 d' (remove_name n W ++ [n]) HI1 Hp1 (NoDup_remove_snoc n W HW)).
    rewrite IH; [| |exact Hnd'|exact Hall].
    + rewrite remove_names_cons. unfold remove_names at 1. rewrite filter_app.
      fold (remove_names (saved_names (y :: ss)) [n]).
      rewrite (remove_names_absent _ [n]); [now rewrite <- app_assoc|].
      repeat constructor. exact Hnin.
    + intros m. rewrite Hn, HB.
      apply lastn_remove_absorb; [lia|]. now apply NoDup_remove_snoc.
Qed.

(** Blob files of snapshots that left the index are gone. *)
Lemma known_blobs_save d t c P d1 (Known : nat -> Prop) :
  Inv d -> save d t c P = Ok d1 ->
  (forall l, Known l -> get l (d_blobs d) <> None -> In l (map e_shard (entries (d_index d)))) ->
  forall l, Known l \/ l = next_seq (d_index d) ->
  get l (d_blobs d1) <> None -> In l (map e_shard (entries (d_index d1))).
Proof.
  intros HI Hsave HK l Hl Hget. apply save_Ok_inv in Hsave as (_ & _ & ->).
  set (n := render_name t c) in *.
  destruct (run_save_plan d n (serialize P)) as (ev & ys & _ & Hs & _ & _ & Hi & Hb).
  rewrite Hi. cbn [entries]. rewrite Hb in Hget. rewrite map_app.
  destruct (existsb (fun e => e_shard e =? l) (filter (same_name n) (entries (d_index d)) ++ ev))
    eqn:Ex; [congruence|].
  destruct (l =? next_seq (d_index d)) eqn:El.
  - apply Nat.eqb_eq in El. subst l. apply in_or_app. right. now left.
  - apply Nat.eqb_neq in El. destruct Hl as [Hl|Hl]; [|contradiction].
    specialize (HK l Hl Hget).
    assert (Hp : In l (map e_shard ((filter (same_name n) (entries (d_index d)) ++ ev) ++ ys))).
    { rewrite <- app_assoc, <- Hs. eapply Permutation_in; [|exact HK].
      apply Permutation_map. apply (filter_partition (same_name n)). }
    rewrite map_app in Hp. apply in_app_or in Hp as [Hp|Hp]; [|now apply in_or_app; left].
    exfalso. apply in_map_iff in Hp as (e & He & Hin).
    apply Bool.not_true_iff_false in Ex. apply Ex. apply existsb_exists.
    exists e. split; [exact Hin|]. now apply Nat.eqb_eq.
Qed.

Lemma known_blobs_save_all ss : forall d d' (Known : nat -> Prop),
  Inv d -> save_all d ss = Ok d' ->
  (forall l, Known l -> get l (d_blobs d) <> None -> In l (map e_shard (entries (d_index d)))) ->
  forall l, Known l \/ (next_seq (d_index d) <= l < next_seq (d_index d')) ->
  get l (d_blobs d') <> None -> In l (map e_shard (entries (d_index d'))).
Proof.
  induction ss as [|[[t c] P] ss IH]; intros d d' Known HI Hall HK l Hl.
  - cbn in Hall. injection Hall as <-. destruct Hl as [Hl|Hl]; [now apply HK|lia].
  - cbn [save_all] in Hall. destruct (save d t c P) as [d1|] eqn:E; [|discriminate].
    assert (HI1 : Inv d1).
    { apply save_Ok_inv in E as (_ & _ & ->). now apply Inv_save_plan. }
    pose proof (save_next_seq _ _ _ _ _ E) as Hn1.
    apply (IH d1 d' (fun l => Known l \/ l = next_seq (d_index d)) HI1 Hall).
    + intros l' Hl'. exact (known_blobs_save d t c P d1 Known HI E HK l' Hl').
    + destruct Hl as [Hl|Hl]; [now left; left|].
      destruct (Nat.eq_dec l (next_seq (d_index d))) as [->|Hne]; [now left; right|].
      right. lia.
Qed.

(** ** Signatures *)

Lemma lookup_signature k P :
  lookup_key k (signature P) = option_map shape (lookup_key k P).
Proof.
  induction P as [|[k' t] P IH]; [reflexivity|]. cbn.
  destruct (String.eqb k k'); [reflexivity|exact IH].
Qed.

Lemma lookup_key_In {A} k (l : list (string * A)) a :
  lookup_key k l = Some a -> In k (map fst l).
Proof.
  induction l as [|[k' b] l IH]; cbn; [discriminate|].
  destruct (String.eqb k k') eqn:E; intros H.
  - left. symmetry. now apply String.eqb_eq.
  - right. now apply IH.
Qed.

Lemma opt_shape_eqb_true a b : opt_shape_eqb a b = true -> a = b.
Proof.
  destruct a as [x|], b as [y|]; cbn; try discriminate; [|reflexivity].
  destruct (list_eq_dec Nat.eq_dec x y); [now subst|discriminate].
Qed.

Lemma flat_map_nil {A B} (f : A -> list B) l :
  flat_map f l = [] -> forall x, In x l -> f x = [].
Proof.
  induction l as [|a l IH]; cbn; [tauto|]. intros H x [<-|Hx];
    apply app_eq_nil in H as [H1 H2]; auto.
Qed.

(** No reported difference means the two signatures agree on every key. *)
Lemma sig_diffs_nil A B :
  sig_diffs A B = [] -> forall k, lookup_key k A = lookup_key k B.
Proof.
  intros H k. unfold sig_diffs in H.
  destruct (in_dec String.string_dec k (map fst A ++ map fst B)) as [Hin|Hout].
  - pose proof (flat_map_nil _ _ H k Hin) as Hk. cbv beta zeta in Hk.
    destruct (opt_shape_eqb (lookup_key k A) (lookup_key k B)) eqn:E.
    + now apply opt_shape_eqb_true.
    + cbv iota in Hk. discriminate Hk.
  - destruct (lookup_key k A) as [a|] eqn:EA.
    + exfalso. apply Hout, in_or_app. left. eapply lookup_key_In; eauto.
    + destruct (lookup_key k B) as [b|] eqn:EB; [|reflexivity].
      exfalso. apply Hout, in_or_app. right. eapply lookup_key_In; eauto.
Qed.

Lemma lookup_set_parameters k P m :
  lookup_key k (set_parameters P m) =
  match lookup_key k m with
  | Some t => Some (match lookup_key k P with Some t' => t' | None => t end)
  | None => None
  end.
Proof.
  induction m as [|[k' t] m IH]; [reflexivity|]. unfold set_parameters in *. cbn [map fst].
  destruct (lookup_key k' P) as [t'|] eqn:E; cbn; destruct (String.eqb k k') eqn:Ek;
    try exact IH; apply String.eqb_eq in Ek; subst k'; now rewrite E.
Qed.

Lemma keys_set_parameters P m : map fst (set_parameters P m) = map fst m.
Proof.
  unfold set_parameters. rewrite map_map. apply map_ext. intros [k t]. cbn.
  now destruct (lookup_key k P).
Qed.

Lemma keys_signature P : map fst (signature P) = map fst P.
Proof. unfold signature. rewrite map_map. reflexivity. Qed.

Lemma set_parameters_idem P m : set_parameters P (set_parameters P m) = set_parameters P m.
Proof.
  unfold set_parameters at 1 2. rewrite map_map. apply map_ext. intros [k t]. cbn.
  destruct (lookup_key k P) as [t'|] eqn:E; cbn; now rewrite E.
Qed.

(** Applying agreeing weights keeps the target's signature, as seen by
    the check. *)
Lemma sig_diffs_after_set P m :
  sig_diffs (signature P) (signature m) = [] ->
  sig_diffs (signature P) (signature (set_parameters P m)) = [].
Proof.
  intros H. pose proof (sig_diffs_nil _ _ H) as Hk.
  rewrite <- H. unfold sig_diffs.
  rewrite !keys_signature, keys_set_parameters.
  apply flat_map_ext. intros k. cbv beta zeta.
  rewrite !lookup_signature, lookup_set_parameters.
  specialize (Hk k). rewrite !lookup_signature in Hk.
  destruct (lookup_key k m) as [t|]; [|reflexivity].
  destruct (lookup_key k P) as [t'|]; [|reflexivity]. now rewrite Hk.
Qed.

Lemma set_parameters_same_keys P T :
  map fst T = map fst P -> NoDup (map fst P) -> set_parameters P T = P.
Proof.
  revert T. induction P as [|[k t] P IH]; intros T HT Hnd.
  - destruct T; [reflexivity|discriminate].
  - destruct T as [|[k' t0] T]; [discriminate|]. cbn in HT. injection HT as -> HT.
    inversion Hnd as [|? ? Hk Hnd']; subst.
    unfold set_parameters. cbn [map fst lookup_key]. rewrite String.eqb_refl. f_equal.
    transitivity (set_parameters P T); [|exact (IH T HT Hnd')].
    unfold set_parameters. apply map_ext_in.
    intros [k1 t1] Hin. cbn [fst].
    assert (Hne : String.eqb k1 k = false).
    { apply String.eqb_neq. intros ->. apply Hk. rewrite <- HT.
      change k with (fst (k, t1)). now apply in_map. }
    now rewrite Hne.
Qed.

(** ** The notebook's model *)

Lemma signature_build_weights rng idx in_dim ls :
  signature (build_weights rng idx in_dim ls) = layer_signature idx in_dim ls.
Proof.
  revert idx in_dim. induction ls as [|[u a|r] ls IH]; intros idx in_dim; [reflexivity| |].
  - cbn [build_weights layer_signature]. unfold signature. cbn [map fst snd shape].
    f_equal. f_equal. apply IH.
  - apply IH.
Qed.

Lemma param_count_signature P : param_count P = signature_count (signature P).
Proof.
  induction P as [|[k t] P IH]; [reflexivity|].
  unfold param_count, signature_count, signature in *. cbn [fold_right map fst snd].
  now rewrite IH.
Qed.

Lemma valid_build_weights rng idx in_dim ls :
  forallb (fun kt => valid_tensor (snd kt)) (build_weights rng idx in_dim ls) = true.
Proof.
  revert idx in_dim. induction ls as [|[u a|r] ls IH]; intros idx in_dim; [reflexivity| |].
  - cbn [build_weights forallb snd]. rewrite IH. unfold valid_tensor. cbn [data shape].
    rewrite length_map, length_seq, repeat_length. unfold prod_dims. cbn [fold_right].
    rewrite !Nat.mul_1_r, !Nat.eqb_refl.
    assert (Hk : forall l, forallb is_finite (map (fun j => Finite (rng idx j)) l) = true)
      by (induction l; cbn; auto).
    assert (Hb : forall v, forallb is_finite (repeat (Finite 0) v) = true)
      by (induction v; cbn; auto).
    now rewrite Hk, Hb.
  - apply IH.
Qed.

Lemma create_model_valid rng : valid_params (create_model rng) = true.
Proof.
  pose proof (valid_build_weights rng 0 input_dim notebook_layers) as H.
  unfold create_model, notebook_layers in *. cbn [build_weights] in *.
  unfold valid_params. exact H.
Qed.

Lemma create_model_keys rng :
  map fst (create_model rng) = map fst (layer_signature 0 input_dim notebook_layers).
Proof.
  unfold create_model. now rewrite <- keys_signature, signature_build_weights.
Qed.

Lemma create_model_keys_NoDup rng : NoDup (map fst (create_model rng)).
Proof.
  rewrite create_model_keys. vm_compute. repeat constructor; cbn; intuition discriminate.
Qed.

(** ** Strings and decimal names *)

Lemma append_assoc_s a b c :
  String.append (String.append a b) c = String.append a (String.append b c).
Proof. induction a as [|x a IH]; cbn; congruence. Qed.

Lemma append_empty_r a : String.append a EmptyString = a.
Proof. induction a as [|x a IH]; cbn; congruence. Qed.

Lemma length_append_s a b :
  String.length (String.append a b) = String.length a + String.length b.
Proof. induction a as [|x a IH]; cbn; congruence. Qed.

Lemma append_cancel_l a b c : String.append a b = String.append a c -> b = c.
Proof. induction a as [|x a IH]; cbn; [auto|]. intros H. injection H. auto. Qed.

Lemma append_cancel_r a b c : String.append a c = String.append b c -> a = b.
Proof.
  revert b. induction a as [|x a IH]; intros [|y b] H; cbn in H; auto.
  - apply (f_equal String.length) in H. cbn in H. rewrite length_append_s in H. lia.
  - apply (f_equal String.length) in H. cbn in H. rewrite length_append_s in H. lia.
  - injection H as -> H. f_equal. auto.
Qed.

Lemma digits_aux_app fuel n acc :
  digits_aux fuel n acc = String.append (digits_aux fuel n EmptyString) acc.
Proof.
  revert n acc. induction fuel as [|f IH]; intros n acc; [reflexivity|].
  cbn [digits_aux]. destruct (n <? 10); [reflexivity|].
  rewrite IH, (IH _ (String _ EmptyString)), append_assoc_s. reflexivity.
Qed.

Lemma digits_value_app s1 s2 a :
  digits_value (String.append s1 s2) a = digits_value s2 (digits_value s1 a).
Proof. revert a. induction s1 as [|c s1 IH]; intros a; cbn; auto. Qed.

Lemma digits_value_pad k a : digits_value (pad_zeros k) a = a * 10 ^ k.
Proof.
  revert a. induction k as [|k IH]; intros a; cbn [pad_zeros digits_value]; [cbn; lia|].
  rewrite IH. change (nat_of_ascii "0") with 48. rewrite Nat.pow_succ_r'. lia.
Qed.

Lemma digit_char k : k < 10 -> nat_of_ascii (ascii_of_nat (48 + k)) = 48 + k.
Proof. intros H. apply nat_ascii_embedding. lia. Qed.

Lemma digits_value_digits fuel n : n < fuel -> digits_value (digits_aux fuel n EmptyString) 0 = n.
Proof.
  revert n. induction fuel as [|f IH]; intros n Hn; [lia|].
  assert (Hm : n mod 10 < 10) by (apply Nat.mod_upper_bound; lia).
  cbn [digits_aux]. destruct (n <? 10) eqn:E.
  - apply Nat.ltb_lt in E. cbn [digits_value]. rewrite digit_char by exact Hm.
    rewrite Nat.mod_small by exact E. lia.
  - apply Nat.ltb_ge in E. rewrite digits_aux_app, digits_value_app, IH.
    + cbn [digits_value]. rewrite digit_char by exact Hm.
      pose proof (Nat.div_mod n 10 ltac:(lia)). lia.
    + assert (n / 10 < n) by (apply Nat.div_lt; lia). lia.
Qed.

Lemma digits_value_format w n : digits_value (format_width w n) 0 = n.
Proof.
  unfold format_width, decimal. rewrite digits_value_app, digits_value_pad.
  cbn [Nat.mul]. apply digits_value_digits. lia.
Qed.

Lemma format_width_inj w n1 n2 : format_width w n1 = format_width w n2 -> n1 = n2.
Proof.
  intros H. rewrite <- (digits_value_format w n1), <- (digits_value_format w n2), H.
  reflexivity.
Qed.

Lemma length_pad k : String.length (pad_zeros k) = k.
Proof. induction k; cbn; auto. Qed.

Lemma length_digits_upper fuel n k :
  1 <= k -> n < 10 ^ k -> String.length (digits_aux fuel n EmptyString) <= k.
Proof.
  revert n k. induction fuel as [|f IH]; intros n k Hk Hn; cbn [digits_aux]; [cbn; lia|].
  destruct (n <? 10) eqn:E; [cbn; lia|]. apply Nat.ltb_ge in E.
  rewrite digits_aux_app, length_append_s. cbn [String.length].
  destruct k as [|[|k]]; [lia|cbn in Hn; lia|].
  assert (IHk : String.length (digits_aux f (n / 10) EmptyString) <= S k).
  { apply IH; [lia|]. apply Nat.Div0.div_lt_upper_bound.
    rewrite <- Nat.pow_succ_r'. exact Hn. }
  lia.
Qed.


Lemma is_digits_app a b :
  is_digits (String.append a b) = is_digits a && is_digits b.
Proof. induction a as [|c a IH]; cbn; [reflexivity|]. rewrite IH. apply andb_assoc. Qed.

Lemma is_digits_digits fuel n : is_digits (digits_aux fuel n EmptyString) = true.
Proof.
  revert n. induction fuel as [|f IH]; intros n; [reflexivity|]. cbn [digits_aux].
  assert (Hc : is_digit (ascii_of_nat (48 + n mod 10)) = true).
  { unfold is_digit. rewrite digit_char by (apply Nat.mod_upper_bound; lia).
    pose proof (Nat.mod_upper_bound n 10 ltac:(lia)).
    apply andb_true_intro; split; apply Nat.leb_le; lia. }
  destruct (n <? 10); cbn [is_digits]; [now rewrite Hc|].
  rewrite digits_aux_app, is_digits_app, IH. cbn [is_digits]. now rewrite Hc.
Qed.

Lemma is_digits_format w n : is_digits (format_width w n) = true.
Proof.
  unfold format_width, decimal. rewrite is_digits_app, is_digits_digits.
  induction (w - _) as [|k IH]; cbn; auto.
Qed.

Lemma is_digits_no_slash s : is_digits s = true -> rfind_slash s = None.
Proof.
  induction s as [|c s IH]; cbn; [reflexivity|]. intros H.
  apply andb_true_iff in H as [Hc H]. rewrite (IH H).
  destruct (Ascii.eqb c slash) eqn:E; [|reflexivity].
  apply Ascii.eqb_eq in E. subst c. discriminate Hc.
Qed.

(** The value of a digit string is below [10 ^ length], and a longer
    accumulator shifts it. *)
Lemma digits_value_acc s a :
  digits_value s a = a * 10 ^ String.length s + digits_value s 0.
Proof.
  revert a. induction s as [|c s IH]; intros a; cbn [digits_value String.length]; [cbn; lia|].
  rewrite IH, (IH (0 * 10 + _)). rewrite Nat.pow_succ_r'. lia.
Qed.

Lemma digits_value_bound s : is_digits s = true -> digits_value s 0 < 10 ^ String.length s.
Proof.
  induction s as [|c s IH]; cbn [is_digits digits_value String.length]; [cbn; lia|].
  intros H. apply andb_true_iff in H as [Hc H]. unfold is_digit in Hc.
  apply andb_true_iff in Hc as [H1 H2]. apply Nat.leb_le in H1, H2.
  rewrite digits_value_acc. specialize (IH H). rewrite Nat.pow_succ_r'. nia.
Qed.

Lemma ascii_compare_nat c1 c2 :
  Ascii.compare c1 c2 = Nat.compare (nat_of_ascii c1) (nat_of_ascii c2).
Proof.
  unfold Ascii.compare, nat_of_ascii. apply Nnat.N2Nat.inj_compare.
Qed.

(** Equal-length digit strings compare as their values. *)
Lemma compare_digits s1 s2 :
  is_digits s1 = true -> is_digits s2 = true -> String.length s1 = String.length s2 ->
  String.compare s1 s2 = Nat.compare (digits_value s1 0) (digits_value s2 0).
Proof.
  revert s2. induction s1 as [|c1 s1 IH]; intros [|c2 s2] H1 H2 Hl; cbn in Hl;
    try discriminate; [reflexivity|].
  cbn [is_digits] in H1, H2.
  apply andb_true_iff in H1 as [Hc1 H1]. apply andb_true_iff in H2 as [Hc2 H2].
  unfold is_digit in Hc1, Hc2.
  apply andb_true_iff in Hc1 as [Ha1 Hb1]. apply andb_true_iff in Hc2 as [Ha2 Hb2].
  apply Nat.leb_le in Ha1, Hb1, Ha2, Hb2. injection Hl as Hl.
  cbn [String.compare digits_value]. rewrite ascii_compare_nat.
  rewrite (digits_value_acc s1), (digits_value_acc s2), <- Hl. cbn [Nat.mul Nat.add].
  pose proof (digits_value_bound s1 H1) as B1. pose proof (digits_value_bound s2 H2) as B2.
  rewrite <- Hl in B2.
  set (L := 10 ^ String.length s1) in *.
  destruct (Nat.compare_spec (nat_of_ascii c1) (nat_of_ascii c2)) as [E|E|E].
  - rewrite E. rewrite (IH s2 H1 H2 Hl).
    destruct (Nat.compare_spec (digits_value s1 0) (digits_value s2 0));
      symmetry; [apply Nat.compare_eq_iff|apply Nat.compare_lt_iff|apply Nat.compare_gt_iff];
      nia.
  - symmetry. apply Nat.compare_lt_iff. nia.
  - symmetry. apply Nat.compare_gt_iff. nia.
Qed.

(** ** [dirname] *)

Lemma rfind_slash_app_none a b :
  rfind_slash a = None -> rfind_slash b = None -> rfind_slash (String.append a b) = None.
Proof.
  induction a as [|c a IH]; cbn; [auto|]. intros Ha Hb.
  destruct (rfind_slash a); [discriminate|]. rewrite (IH eq_refl Hb). exact Ha.
Qed.

Lemma rfind_slash_join d f :
  rfind_slash f = None -> rfind_slash (String.append d (String "/" f)) = Some (String.length d).
Proof.
  intros Hf. induction d as [|c d IH]; cbn.
  - now rewrite Hf.
  - now rewrite IH.
Qed.

Lemma substring_prefix a b : String.substring 0 (String.length a) (String.append a b) = a.
Proof. induction a as [|c a IH]; cbn; [now destruct b|]. now rewrite IH. Qed.

Lemma all_slash_rstrip s : all_slash s = true -> rstrip_slash s = EmptyString.
Proof.
  induction s as [|c s IH]; cbn; [auto|]. intros H.
  apply andb_true_iff in H as [Hc H]. now rewrite (IH H), Hc.
Qed.

Lemma rstrip_empty_all_slash s : rstrip_slash s = EmptyString -> all_slash s = true.
Proof.
  induction s as [|c s IH]; cbn; [auto|].
  destruct (String.eqb (rstrip_slash s) EmptyString) eqn:E1, (Ascii.eqb c slash) eqn:E2;
    cbn; intros H; try discriminate.
  apply String.eqb_eq in E1. now rewrite (IH E1).
Qed.

Lemma rstrip_append_slashes s t :
  all_slash t = true -> rstrip_slash (String.append s t) = rstrip_slash s.
Proof.
  intros Ht. induction s as [|c s IH]; cbn [String.append rstrip_slash].
  - now apply all_slash_rstrip.
  - now rewrite IH.
Qed.

Lemma dirname_join_lemma d f :
  d <> EmptyString -> rstrip_slash d = d -> rfind_slash f = None ->
  dirname (String.append d (String "/" f)) = d.
Proof.
  intros Hne Hd Hf. unfold dirname. rewrite rfind_slash_join by exact Hf.
  replace (String.append d (String "/" f))
    with (String.append (String.append d (String "/" EmptyString)) f)
    by (rewrite append_assoc_s; reflexivity).
  replace (S (String.length d)) with (String.length (String.append d (String "/" EmptyString)))
    by (rewrite length_append_s; cbn; lia).
  rewrite substring_prefix.
  assert (Hall : all_slash d = false).
  { destruct (all_slash d) eqn:E; [|reflexivity].
    exfalso. apply Hne. rewrite <- Hd. now apply all_slash_rstrip. }
  assert (Hall' : all_slash (String.append d (String "/" EmptyString)) = false).
  { clear Hd. induction d as [|c d IH]; [contradiction|]. cbn in Hall |- *.
    destruct (Ascii.eqb c slash); [|reflexivity]. cbn in Hall |- *.
    destruct d as [|c' d]; [discriminate|]. apply IH; [discriminate|exact Hall]. }
  assert (Hne' : String.eqb (String.append d (String "/" EmptyString)) EmptyString = false)
    by (destruct d; reflexivity).
  rewrite Hall', Hne'. cbn [negb andb]. rewrite rstrip_append_slashes by reflexivity. exact Hd.
Qed.

(** ** [reshape(-1, k)] *)

Lemma length_concat_uniform {A} k (rows : list (list A)) :
  Forall (fun r => List.length r = k) rows -> List.length (List.concat rows) = List.length rows * k.
Proof.
  induction 1 as [|r rows Hr _ IH]; cbn; [reflexivity|]. rewrite length_app, IH. lia.
Qed.

Lemma chunk_rows_concat {A} k (rows : list (list A)) :
  Forall (fun r => List.length r = k) rows ->
  chunk_rows k (List.length rows) (List.concat rows) = rows.
Proof.
  induction 1 as [|r rows Hr _ IH]; cbn; [reflexivity|]. f_equal.
  - rewrite firstn_app, Hr, Nat.sub_diag, firstn_O, app_nil_r, <- Hr. apply firstn_all.
  - rewrite skipn_app, Hr, Nat.sub_diag, skipn_O, <- Hr, skipn_all, app_nil_l, Hr. exact IH.
Qed.

Lemma reshape_rows_concat {A} k (rows : list (list A)) :
  0 < k -> Forall (fun r => List.length r = k) rows ->
  reshape_rows k (List.concat rows) = Some rows.
Proof.
  intros Hk Hr. unfold reshape_rows. rewrite (length_concat_uniform k rows Hr).
  rewrite Nat.Div0.mod_mul, Nat.div_mul by lia.
  destruct k as [|k]; [lia|]. cbn [Nat.eqb orb negb].
  now rewrite chunk_rows_concat.
Qed.

Lemma chunk_rows_spec {A} k n (l : list A) :
  List.length l = n * k ->
  List.concat (chunk_rows k n l) = l /\ Forall (fun r => List.length r = k) (chunk_rows k n l) /\
  List.length (chunk_rows k n l) = n.
Proof.
  revert l. induction n as [|n IH]; intros l Hl.
  - destruct l; [|discriminate]. cbn. auto.
  - destruct (IH (skipn k l)) as (H1 & H2 & H3); [rewrite length_skipn; lia|].
    cbn [chunk_rows List.concat List.length]. rewrite H1, firstn_skipn. repeat split; auto.
    constructor; [|exact H2]. rewrite length_firstn. lia.
Qed.



(** ** Models of any stack of layers *)

Lemma weight_key_split a b w v :
  rfind_slash a = None -> rfind_slash b = None ->
  String.append a (String "/" w) = String.append b (String "/" v) -> a = b /\ w = v.
Proof.
  revert b. induction a as [|c a IH]; intros [|c' b] Ha Hb H; cbn in H.
  - injection H. auto.
  - injection H as Hc _. cbn in Hb. destruct (rfind_slash b); [discriminate|].
    subst c'. cbv in Hb. discriminate Hb.
  - injection H as Hc _. cbn in Ha. destruct (rfind_slash a); [discriminate|].
    subst c. cbv in Ha. discriminate Ha.
  - injection H as -> H. cbn in Ha, Hb.
    destruct (rfind_slash a) eqn:Ea; [discriminate|].
    destruct (rfind_slash b) eqn:Eb; [discriminate|].
    destruct (IH b eq_refl Eb H) as [-> ->]. auto.
Qed.

Lemma decimal_no_slash n : rfind_slash (decimal n) = None.
Proof. apply is_digits_no_slash, is_digits_digits. Qed.

Lemma weight_key_inj i j w v : weight_key i w = weight_key j v -> i = j /\ w = v.
Proof.
  unfold weight_key. intros H. apply append_cancel_l in H.
  apply weight_key_split in H as [Hd ->]; try apply decimal_no_slash.
  split; [|reflexivity]. apply (format_width_inj 0). exact Hd.
Qed.

Lemma build_weights_keys rng idx in_dim ls k :
  In k (map fst (build_weights rng idx in_dim ls)) -> exists j w, idx <= j /\ k = weight_key j w.
Proof.
  revert idx in_dim. induction ls as [|[u a|r] ls IH]; intros idx in_dim; cbn; [tauto| |].
  - intros [<-|[<-|H]]; [eauto|eauto|].
    destruct (IH _ _ H) as (j & w & Hj & ->). exists j, w. split; [lia|reflexivity].
  - apply IH.
Qed.

Lemma build_weights_NoDup rng idx in_dim ls : NoDup (map fst (build_weights rng idx in_dim ls)).
Proof.
  revert idx in_dim. induction ls as [|[u a|r] ls IH]; intros idx in_dim; cbn [build_weights].
  - constructor.
  - cbn [map fst]. constructor; [|constructor; [|apply IH]].
    + intros [H|H].
      * apply weight_key_inj in H as [_ H]. discriminate H.
      * destruct (build_weights_keys _ _ _ _ _ H) as (j & w & Hj & Hk).
        apply weight_key_inj in Hk as [Hk _]. lia.
    + intros H. destruct (build_weights_keys _ _ _ _ _ H) as (j & w & Hj & Hk).
      apply weight_key_inj in Hk as [Hk _]. lia.
  - apply IH.
Qed.

Lemma sig_diffs_refl A : sig_diffs A A = [].
Proof.
  unfold sig_diffs. induction (map fst A ++ map fst A) as [|k l IH]; [reflexivity|].
  cbn [flat_map]. rewrite IH. destruct (lookup_key k A) as [x|]; cbn; [|reflexivity].
  destruct (list_eq_dec Nat.eq_dec x x); [reflexivity|contradiction].
Qed.

(** ** Lengths and order of formatted names *)

Lemma length_format_width w n :
  String.length (format_width w n) = Nat.max w (String.length (decimal n)).
Proof. unfold format_width. rewrite length_append_s, length_pad. lia. Qed.

Lemma length_format_exact w n : 0 < w -> n < 10 ^ w -> String.length (format_width w n) = w.
Proof.
  intros Hw Hn. rewrite length_format_width.
  pose proof (length_digits_upper (S n) n w ltac:(lia) Hn). unfold decimal. lia.
Qed.

Lemma compare_refl_s s : String.compare s s = Eq.
Proof.
  induction s as [|c s IH]; cbn; [reflexivity|]. rewrite ascii_compare_nat, Nat.compare_refl.
  exact IH.
Qed.

Lemma compare_app_eq_len x y b c :
  String.length x = String.length y ->
  String.compare (String.append x b) (String.append y c) =
  match String.compare x y with Eq => String.compare b c | r => r end.
Proof.
  revert y. induction x as [|c1 x IH]; intros [|c2 y] H; cbn in H; try discriminate;
    [reflexivity|].
  injection H as H. cbn [String.append String.compare].
  destruct (Ascii.compare c1 c2); [apply IH; exact H|reflexivity|reflexivity].
Qed.

(** * Claims *)

(** C1. Round-trip: a parameter mapping [P] that [save] accepts under the
    rendered name [N] is non-empty, and [load N] right after returns exactly
    [P]: same keys in the same order, same shapes, same values. *)
Theorem save_load_roundtrip d t c P d' :
  reachable d -> save d t c P = Ok d' ->
  P <> [] /\ load d' (ByName (render_name t c)) = Ok P.
Proof.
  intros Hr Hsave. split.
  - apply save_Ok_inv in Hsave as (Hv & _). now destruct P.
  - apply (load_after_save d t c P d' (reachable_Inv d Hr) Hsave).
Qed.

Lemma save_load_roundtrip_witness :
  reachable store0 /\
  save store0 epoch_template (mk_ctx 5) (sample_params 3) =
    Ok (store_after [(epoch_template, mk_ctx 5, sample_params 3)]) /\
  (sample_params 3 <> [] /\
   load (store_after [(epoch_template, mk_ctx 5, sample_params 3)]) (ByName "cp-0005.ckpt"%string)
   = Ok (sample_params 3)).
Proof.
  split; [constructor|]. split; [vm_compute; reflexivity|].
  apply (save_load_roundtrip store0 epoch_template (mk_ctx 5) (sample_params 3)
           (store_after [(epoch_template, mk_ctx 5, sample_params 3)])).
  - constructor.
  - vm_compute. reflexivity.
Defined.

(** C3. Latest resolution: after successful saves from an empty store,
    which produce the sequence indices 1..M, the latest pointer resolves to
    the snapshot with sequence index M, the highest index present, and
    [load latest] returns the payload of that last save. *)
Theorem latest_resolves_to_last_save pol w ss t c P d' :
  save_all (empty_disk pol w) (ss ++ [(t, c, P)]) = Ok d' ->
  exists e, resolve d' Latest = Some e /\
    e_seq e = S (List.length ss) /\
    (forall e', In e' (entries (d_index d')) -> e_seq e' <= e_seq e) /\
    load d' Latest = Ok P.
Proof.
  rewrite save_all_app. destruct (save_all (empty_disk pol w) ss) as [d1|] eqn:E1;
    [|discriminate].
  cbn [save_all]. destruct (save d1 t c P) as [d2|] eqn:E2; [|discriminate].
  intros [= <-].
  assert (Hr1 : reachable d1) by (eapply save_all_reachable; [constructor|exact E1]).
  assert (Hr2 : reachable d2) by (eapply reach_save; eauto).
  pose proof (save_all_next_seq _ _ _ E1) as Hn1. cbn in Hn1.
  pose proof (save_next_seq _ _ _ _ _ E2) as Hn2.
  destruct (save_Ok_inv _ _ _ _ _ E2) as (_ & _ & Hd2).
  destruct (resolve_after_save_plan d1 (render_name t c) (serialize P) (reachable_Inv _ Hr1))
    as (_ & HL & _).
  rewrite <- Hd2 in HL.
  eexists. split; [exact HL|]. cbn [e_seq]. split; [lia|]. split.
  - destruct (reachable_Inv _ Hr2) as (HF & _). rewrite Forall_forall in HF.
    intros e' He'. destruct (HF e' He'). lia.
  - apply (load_after_save d1 t c P d2 (reachable_Inv _ Hr1) E2).
Qed.

Lemma latest_resolves_to_last_save_witness :
  save_all store0 (epoch_saves [5; 10] ++ [(epoch_template, mk_ctx 15, sample_params 15)])
    = Ok (store_after (epoch_saves [5; 10; 15])) /\
  exists e, resolve (store_after (epoch_saves [5; 10; 15])) Latest = Some e /\
    e_seq e = 3 /\
    (forall e', In e' (entries (d_index (store_after (epoch_saves [5; 10; 15])))) ->
                e_seq e' <= e_seq e) /\
    load (store_after (epoch_saves [5; 10; 15])) Latest = Ok (sample_params 15).
Proof.
  split; [vm_compute; reflexivity|].
  apply (latest_resolves_to_last_save (Some 2%positive) true (epoch_saves [5; 10])
           epoch_template (mk_ctx 15) (sample_params 15)).
  vm_compute. reflexivity.
Defined.

(** C4. Overwrite (last-write-wins): two successful saves whose names
    render to the same [N] leave exactly one index entry named [N]; [load N]
    returns the second payload, and the blob file of the first snapshot has
    been removed. *)
Theorem overwrite_last_write_wins d t1 c1 P1 d1 t2 c2 P2 d2 :
  reachable d ->
  save d t1 c1 P1 = Ok d1 -> save d1 t2 c2 P2 = Ok d2 ->
  render_name t1 c1 = render_name t2 c2 ->
  List.length (filter (same_name (render_name t2 c2)) (entries (d_index d2))) = 1 /\
  load d2 (ByName (render_name t2 c2)) = Ok P2 /\
  get (next_seq (d_index d)) (d_blobs d2) = None.
Proof.
  intros Hr H1 H2 Hn.
  assert (Hr1 : reachable d1) by (eapply reach_save; eauto).
  set (n := render_name t2 c2) in *.
  destruct (save_Ok_inv _ _ _ _ _ H1) as (_ & _ & Hd1).
  destruct (save_Ok_inv _ _ _ _ _ H2) as (_ & _ & Hd2). fold n in Hd2.
  destruct (resolve_after_save_plan d n (serialize P1) (reachable_Inv _ Hr)) as (Hf1 & _).
  rewrite Hn in Hd1. fold n in Hd1. rewrite <- Hd1 in Hf1.
  destruct (run_save_plan d1 n (serialize P2)) as (ev & ys & _ & Hs & _ & _ & Hi & Hb).
  rewrite <- Hd2 in Hi, Hb.
  split; [|split].
  - rewrite Hi. cbn [entries]. rewrite filter_app.
    replace (filter (same_name n) ys) with (@nil entry).
    + cbn. now rewrite String.eqb_refl.
    + symmetry. apply filter_none. eapply kept_not_named; eauto.
  - apply (load_after_save d1 t2 c2 P2 d2 (reachable_Inv _ Hr1) H2).
  - rewrite Hb. unfold resolve, find_entry in Hf1. apply find_some in Hf1 as [Hin Hsame].
    replace (existsb _ _) with true; [reflexivity|]. symmetry.
    apply existsb_exists. eexists. split.
    + apply in_or_app. left. apply filter_In. split; [exact Hin|exact Hsame].
    + apply Nat.eqb_refl.
Qed.

Lemma overwrite_last_write_wins_witness :
  reachable store0 /\
  save store0 rolling_template (mk_ctx 1) (sample_params 1) =
    Ok (store_after [(rolling_template, mk_ctx 1, sample_params 1)]) /\
  save (store_after [(rolling_template, mk_ctx 1, sample_params 1)])
       rolling_template (mk_ctx 2) (sample_params 2) =
    Ok (store_after [(rolling_template, mk_ctx 1, sample_params 1);
                     (rolling_template, mk_ctx 2, sample_params 2)]) /\
  render_name rolling_template (mk_ctx 1) = render_name rolling_template (mk_ctx 2) /\
  (let d2 := store_after [(rolling_template, mk_ctx 1, sample_params 1);
                          (rolling_template, mk_ctx 2, sample_params 2)] in
   List.length (filter (same_name (render_name rolling_template (mk_ctx 2)))
                       (entries (d_index d2))) = 1 /\
   load d2 (ByName (render_name rolling_template (mk_ctx 2))) = Ok (sample_params 2) /\
   get (next_seq (d_index store0)) (d_blobs d2) = None).
Proof.
  split; [constructor|]. split; [vm_compute; reflexivity|].
  split; [vm_compute; reflexivity|]. split; [reflexivity|].
  apply (overwrite_last_write_wins store0 rolling_template (mk_ctx 1) (sample_params 1)
           (store_after [(rolling_template, mk_ctx 1, sample_params 1)])
           rolling_template (mk_ctx 2) (sample_params 2)).
  - constructor.
  - vm_compute. reflexivity.
  - vm_compute. reflexivity.
  - reflexivity.
Defined.

(** C7. Latest-pointer invariant: in every reachable store (after any
    sequence of saves with their evictions, deletions and interrupted
    saves), a set latest pointer names an entry present in the index, and
    [latest] resolves to that entry. *)
Theorem latest_pointer_in_index d n :
  reachable d -> latest (d_index d) = Some n ->
  exists e, resolve d Latest = Some e /\ In e (entries (d_index d)) /\ e_name e = n.
Proof.
  intros Hr Hl. destruct (reachable_Inv d Hr) as (_ & _ & _ & HL).
  rewrite Hl in HL. destruct (last_opt (entries (d_index d))) as [e0|] eqn:E;
    [|discriminate].
  injection HL as Hn. apply last_opt_In in E.
  unfold resolve. rewrite Hl. unfold find_entry.
  destruct (find (same_name n) (entries (d_index d))) as [e|] eqn:Ef.
  - apply find_some in Ef as [Hin Hs]. exists e. repeat split; auto.
    now apply String.eqb_eq in Hs.
  - exfalso. apply find_none with (x := e0) in Ef; [|exact E].
    unfold same_name in Ef. rewrite Hn, String.eqb_refl in Ef. discriminate.
Qed.

Lemma latest_pointer_in_index_witness :
  reachable (delete (store_after (epoch_saves [5; 10; 15])) "cp-0015.ckpt") /\
  latest (d_index (delete (store_after (epoch_saves [5; 10; 15])) "cp-0015.ckpt"))
    = Some "cp-0010.ckpt"%string /\
  exists e, resolve (delete (store_after (epoch_saves [5; 10; 15])) "cp-0015.ckpt") Latest
              = Some e /\
    In e (entries (d_index (delete (store_after (epoch_saves [5; 10; 15])) "cp-0015.ckpt"))) /\
    e_name e = "cp-0010.ckpt"%string.
Proof.
  assert (Hr : reachable (delete (store_after (epoch_saves [5; 10; 15])) "cp-0015.ckpt")).
  { apply reach_delete. apply (save_all_reachable store0 (epoch_saves [5; 10; 15]));
      [constructor|vm_compute; reflexivity]. }
  split; [exact Hr|]. split; [vm_compute; reflexivity|].
  apply (latest_pointer_in_index _ _ Hr). vm_compute. reflexivity.
Defined.

(** C8. Idempotent delete: [delete N] never fails; a second [delete N]
    leaves the store as the first one left it, and deleting a name absent
    from the index changes nothing. *)
Theorem delete_idempotent s n :
  exists s1, exec s (CmdDelete n) = (s1, RUnit) /\
             exec s1 (CmdDelete n) = (s1, RUnit) /\
             (find_entry n (entries (d_index (s_disk s))) = None -> s1 = s).
Proof.
  exists (mk_sys (delete (s_disk s) n) (s_model s)). split; [reflexivity|]. split.
  - cbn. now rewrite delete_twice.
  - intros Hn. unfold delete. rewrite Hn. now destruct s.
Qed.

(** C2. Retention: with [max_kept = K], after M > K successful saves under
    distinct names, [list()] returns exactly K entries, the names of the K
    most recent saves; every snapshot that was indexed before the run or
    created during it and is no longer indexed has no blob file left; and
    each save changes what [list()] and [load()] observe in one step, the
    index update that appends the new entry and drops the evicted ones. *)
Theorem retention_keeps_most_recent d K ss d' :
  reachable d -> d_policy d = Some K -> NoDup (saved_names ss) ->
  Pos.to_nat K < List.length ss -> save_all d ss = Ok d' ->
  map fst (list_snapshots d') = lastn (Pos.to_nat K) (saved_names ss) /\
  List.length (list_snapshots d') = Pos.to_nat K /\
  (forall l, In l (map e_shard (entries (d_index d))) \/
             next_seq (d_index d) <= l < next_seq (d_index d') ->
     get l (d_blobs d') <> None -> In l (map e_shard (entries (d_index d')))) /\
  (forall d0 t c P d1, reachable d0 -> save d0 t c P = Ok d1 ->
     forall k, let dk := run_ops (firstn k (save_plan d0 (render_name t c) (serialize P))) d0 in
       same_view dk d0 \/ same_view dk d1).
Proof.
  intros Hr Hp Hnd HM Hall. pose proof (reachable_Inv d Hr) as HI.
  assert (Hnames : map fst (list_snapshots d') = lastn (Pos.to_nat K) (saved_names ss)).
  { destruct ss as [|x ss']; [cbn in HM; lia|].
    replace (map fst (list_snapshots d')) with (map e_name (entries (d_index d')))
      by (unfold list_snapshots; rewrite map_map; reflexivity).
    rewrite (names_after_save_all K ss' x d d' (map e_name (entries (d_index d))) HI Hp);
      [| destruct HI as (_ & _ & HN & _); exact HN | reflexivity | exact Hnd | exact Hall].
    apply lastn_app_long. unfold saved_names. rewrite length_map. lia. }
  split; [exact Hnames|]. split; [|split].
  - rewrite <- (length_map fst), Hnames, length_lastn.
    unfold saved_names. rewrite length_map. lia.
  - intros l Hl. apply (known_blobs_save_all ss d d' (fun l => In l (map e_shard (entries (d_index d)))) HI Hall);
      [intros; assumption|exact Hl].
  - intros d0 t c P d1 Hr0 Hsave k. cbn zeta.
    destruct (save_Ok_inv _ _ _ _ _ Hsave) as (_ & _ & Hd1).
    destruct (save_prefix_view d0 (render_name t c) (serialize P) k (reachable_Inv _ Hr0))
      as [Hearly Hlate].
    destruct (Nat.le_gt_cases k 2) as [Hk|Hk].
    + left. now apply Hearly.
    + right. rewrite Hd1. apply Hlate. lia.
Qed.

Lemma retention_keeps_most_recent_witness :
  reachable store0 /\ d_policy store0 = Some 2%positive /\
  NoDup (saved_names (epoch_saves [0; 5; 10; 15; 20])) /\
  Pos.to_nat 2 < List.length (epoch_saves [0; 5; 10; 15; 20]) /\
  save_all store0 (epoch_saves [0; 5; 10; 15; 20]) = Ok (store_after (epoch_saves [0; 5; 10; 15; 20])) /\
  map fst (list_snapshots (store_after (epoch_saves [0; 5; 10; 15; 20])))
    = lastn (Pos.to_nat 2) (saved_names (epoch_saves [0; 5; 10; 15; 20])).
Proof.
  assert (H1 : reachable store0) by constructor.
  assert (H2 : d_policy store0 = Some 2%positive) by reflexivity.
  assert (H3 : NoDup (saved_names (epoch_saves [0; 5; 10; 15; 20]))).
  { vm_compute. repeat constructor; cbn; intuition discriminate. }
  assert (H4 : Pos.to_nat 2 < List.length (epoch_saves [0; 5; 10; 15; 20]))
    by (vm_compute; lia).
  assert (H5 : save_all store0 (epoch_saves [0; 5; 10; 15; 20])
               = Ok (store_after (epoch_saves [0; 5; 10; 15; 20])))
    by (vm_compute; reflexivity).
  repeat (split; [assumption|]).
  exact (proj1 (retention_keeps_most_recent store0 2%positive (epoch_saves [0; 5; 10; 15; 20])
                  (store_after (epoch_saves [0; 5; 10; 15; 20])) H1 H2 H3 H4 H5)).
Defined.

(** C6. Crash consistency: a save interrupted before its index update (after
    staging the blob, or after renaming it to its shard, but before the
    index commit, the third of its steps) changes nothing [list()] or
    [load()] can observe: the interrupted snapshot is not listed, and every
    load, [latest] included, returns what it returned before. *)
Theorem interrupted_save_not_observable d n b k :
  reachable d -> k <= 2 ->
  let d' := run_ops (firstn k (save_plan d n b)) d in
  list_snapshots d' = list_snapshots d /\ forall r, load d' r = load d r.
Proof.
  intros Hr Hk. apply (save_prefix_view d n b k (reachable_Inv d Hr)). exact Hk.
Qed.

Lemma interrupted_save_not_observable_witness :
  reachable (store_after (epoch_saves [5; 10])) /\ 2 <= 2 /\
  (let d' := run_ops (firstn 2 (save_plan (store_after (epoch_saves [5; 10]))
                                  "cp-0015.ckpt" (serialize (sample_params 15))))
                     (store_after (epoch_saves [5; 10])) in
   list_snapshots d' = list_snapshots (store_after (epoch_saves [5; 10])) /\
   forall r, load d' r = load (store_after (epoch_saves [5; 10])) r).
Proof.
  assert (Hr : reachable (store_after (epoch_saves [5; 10]))).
  { apply (save_all_reachable store0 (epoch_saves [5; 10]));
      [constructor|vm_compute; reflexivity]. }
  split; [exact Hr|]. split; [lia|].
  apply (interrupted_save_not_observable _ _ _ 2 Hr). lia.
Defined.

(** C5. Architecture mismatch: when the snapshot [r] resolves to has a
    parameter key or a shape that the target lacks or has with another
    shape, [load] into the target fails with [ArchitectureMismatch] listing
    a non-empty set of differences, before any value is applied: the target
    is returned unchanged, and the model under training is not touched. *)
Theorem load_mismatch_leaves_target d r P target :
  load d r = Ok P ->
  (exists k, lookup_key k (signature P) <> lookup_key k (signature target)) ->
  exists ds, ds <> [] /\
    load_into d r target = (Err (ArchitectureMismatch ds), target) /\
    forall s, s_disk s = d -> s_model s = target ->
      exec s (CmdLoad r) = (s, RErr (ArchitectureMismatch ds)).
Proof.
  intros Hload [k Hk].
  assert (Hli : exists ds, ds <> [] /\
            load_into d r target = (Err (ArchitectureMismatch ds), target)).
  { unfold load_into. rewrite Hload. unfold apply_weights.
    destruct (sig_diffs (signature P) (signature target)) as [|x ds] eqn:E.
    - exfalso. exact (Hk (sig_diffs_nil _ _ E k)).
    - exists (x :: ds). split; [discriminate|reflexivity]. }
  destruct Hli as (ds & Hne & Hli). exists ds. split; [exact Hne|]. split; [exact Hli|].
  intros [d0 m0] Hd Hm. cbn in Hd, Hm. subst d0 m0. cbn. now rewrite Hli.
Qed.

Lemma load_mismatch_leaves_target_witness :
  exists ds, ds <> [] /\
    load_into (store_after (epoch_saves [5])) Latest wider_params
      = (Err (ArchitectureMismatch ds), wider_params) /\
    forall s, s_disk s = store_after (epoch_saves [5]) -> s_model s = wider_params ->
      exec s (CmdLoad Latest) = (s, RErr (ArchitectureMismatch ds)).
Proof.
  apply (load_mismatch_leaves_target (store_after (epoch_saves [5])) Latest
           (sample_params 5) wider_params).
  - vm_compute. reflexivity.
  - exists "layer_with_weights-0/kernel"%string. vm_compute. discriminate.
Defined.

(** C9. Every call of [create_model], whatever its random initial values,
    builds the same architecture: the keys and shapes of a Dense 784x512
    kernel with a 512 bias and a Dense 512x10 kernel with a 10 bias, 407050
    parameters in all; so weights of one instance apply to another without
    mismatch, also when they go through a save and a load. *)
Theorem create_model_same_architecture (rng1 rng2 : nat -> nat -> Z) :
  signature (create_model rng1) = signature (create_model rng2) /\
  signature (create_model rng1) =
    [("layer_with_weights-0/kernel"%string, [784; 512]);
     ("layer_with_weights-0/bias"%string, [512]);
     ("layer_with_weights-1/kernel"%string, [512; 10]);
     ("layer_with_weights-1/bias"%string, [10])] /\
  param_count (create_model rng1) = 407050%N /\
  apply_weights (create_model rng1) (create_model rng2) = (Ok tt, create_model rng1) /\
  (forall d t c, reachable d -> d_writable d = true ->
     exists d', save d t c (create_model rng1) = Ok d' /\
       load_into d' (ByName (render_name t c)) (create_model rng2)
         = (Ok tt, create_model rng1)).
Proof.
  assert (Hsig : forall rng, signature (create_model rng) =
                             layer_signature 0 input_dim notebook_layers)
    by (intros; apply signature_build_weights).
  assert (Happ : apply_weights (create_model rng1) (create_model rng2)
                 = (Ok tt, create_model rng1)).
  { unfold apply_weights. rewrite !Hsig.
    replace (sig_diffs (layer_signature 0 input_dim notebook_layers)
                       (layer_signature 0 input_dim notebook_layers)) with
      (@nil (string * option (list nat) * option (list nat)))
      by (vm_compute; reflexivity).
    rewrite (set_parameters_same_keys (create_model rng1) (create_model rng2));
      [reflexivity|now rewrite !create_model_keys|apply create_model_keys_NoDup]. }
  split; [now rewrite !Hsig|].
  split; [rewrite Hsig; vm_compute; reflexivity|].
  split; [rewrite param_count_signature, Hsig; vm_compute; reflexivity|].
  split; [exact Happ|].
  intros d t c Hr Hw.
  exists (run_ops (save_plan d (render_name t c) (serialize (create_model rng1))) d).
  assert (Hs : save d t c (create_model rng1) =
               Ok (run_ops (save_plan d (render_name t c) (serialize (create_model rng1))) d)).
  { unfold save. now rewrite create_model_valid, Hw. }
  split; [exact Hs|].
  unfold load_into.
  rewrite (proj1 (load_after_save d t c _ _ (reachable_Inv d Hr) Hs)). exact Happ.
Qed.

(** C10. [load] is read-only on the store: it changes only the model under
    training, leaves the disk (snapshots, blobs, index, latest pointer) as
    it was, and loading again, any number of times, gives the same model
    and the same response. *)
Theorem load_read_only s r s1 resp :
  exec s (CmdLoad r) = (s1, resp) ->
  s_disk s1 = s_disk s /\ exec s1 (CmdLoad r) = (s1, resp) /\
  forall n, Nat.iter n (fun x => fst (exec x (CmdLoad r))) s1 = s1.
Proof.
  intros H.
  assert (Hfix : exec s1 (CmdLoad r) = (s1, resp)).
  { revert H. destruct s as [d m]. unfold exec, load_into. cbn [s_disk s_model].
    destruct (load d r) as [P|e] eqn:El;
      [|intros [= <- <-]; cbn [s_disk s_model]; now rewrite El].
    unfold apply_weights.
    destruct (sig_diffs (signature P) (signature m)) as [|x ds] eqn:E.
    - intros [= <- <-]. cbn [s_disk s_model]. rewrite El.
      rewrite (sig_diffs_after_set P m E), set_parameters_idem. reflexivity.
    - intros [= <- <-]. cbn [s_disk s_model]. rewrite El. now rewrite E. }
  split; [|split; [exact Hfix|]].
  - revert H. destruct s as [d m]. unfold exec. cbn [s_disk s_model].
    destruct (load_into d r m) as [[u|e] m']; intros [= <- _]; reflexivity.
  - intros n. induction n as [|n IH]; [reflexivity|].
    rewrite Nat.iter_succ, IH, Hfix. reflexivity.
Qed.

Lemma load_read_only_witness :
  exec (mk_sys (store_after (epoch_saves [5])) wider_params) (CmdLoad Latest)
    = (mk_sys (store_after (epoch_saves [5])) wider_params,
       RErr (ArchitectureMismatch
               (sig_diffs (signature (sample_params 5)) (signature wider_params)))) /\
  (s_disk (mk_sys (store_after (epoch_saves [5])) wider_params)
     = s_disk (mk_sys (store_after (epoch_saves [5])) wider_params) /\
   exec (mk_sys (store_after (epoch_saves [5])) wider_params) (CmdLoad Latest)
     = (mk_sys (store_after (epoch_saves [5])) wider_params,
        RErr (ArchitectureMismatch
                (sig_diffs (signature (sample_params 5)) (signature wider_params)))) /\
   forall n, Nat.iter n (fun x => fst (exec x (CmdLoad Latest)))
               (mk_sys (store_after (epoch_saves [5])) wider_params)
             = mk_sys (store_after (epoch_saves [5])) wider_params).
Proof.
  assert (H : exec (mk_sys (store_after (epoch_saves [5])) wider_params) (CmdLoad Latest)
    = (mk_sys (store_after (epoch_saves [5])) wider_params,
       RErr (ArchitectureMismatch
               (sig_diffs (signature (sample_params 5)) (signature wider_params)))))
    by (vm_compute; reflexivity).
  split; [exact H|].
  exact (load_read_only _ _ _ _ H).
Defined.

(** * Further properties of the notebook's code *)

(** Epoch checkpoint names ([checkpoint_path.format(epoch=e)] with a
    ["{epoch:0wd}"] field between two literal parts) are distinct for
    distinct epochs: no epoch's checkpoint file is written over by
    another's. *)
Theorem epoch_name_injective a w b e1 e2 :
  render_name [Lit a; EpochField w; Lit b] (mk_ctx e1) =
  render_name [Lit a; EpochField w; Lit b] (mk_ctx e2) <-> e1 = e2.
Proof.
  split; [|now intros ->]. cbn [render_name epoch]. intros H.
  apply append_cancel_l, append_cancel_r in H. exact (format_width_inj w e1 e2 H).
Qed.



(** Below [10 ^ w] epochs, the epoch checkpoint names sort as their
    epochs: string order of the names is numeric order of the epochs. *)
Theorem epoch_name_order a w b e1 e2 :
  e1 < 10 ^ w -> e2 < 10 ^ w ->
  String.compare (render_name [Lit a; EpochField w; Lit b] (mk_ctx e1))
                 (render_name [Lit a; EpochField w; Lit b] (mk_ctx e2)) = Nat.compare e1 e2.
Proof.
  intros H1 H2. cbn [render_name epoch].
  rewrite compare_app_eq_len, compare_refl_s by reflexivity.
  assert (Hl : String.length (format_width w e1) = String.length (format_width w e2)).
  { destruct w as [|w].
    - cbn in H1, H2. assert (e1 = 0) as -> by lia. assert (e2 = 0) as -> by lia. reflexivity.
    - rewrite !length_format_exact by lia. reflexivity. }
  rewrite compare_app_eq_len by exact Hl.
  rewrite compare_digits by (apply is_digits_format || exact Hl).
  rewrite !digits_value_format.
  destruct (Nat.compare e1 e2) eqn:E; [|reflexivity|reflexivity].
  apply Nat.compare_eq_iff in E. subst e2. apply compare_refl_s.
Qed.

Lemma epoch_name_order_witness :
  5 < 10 ^ 4 /\ 50 < 10 ^ 4 /\
  String.compare (render_name [Lit "training_2/cp-"; EpochField 4; Lit ".ckpt"] (mk_ctx 5))
                 (render_name [Lit "training_2/cp-"; EpochField 4; Lit ".ckpt"] (mk_ctx 50))
    = Nat.compare 5 50.
Proof.
  split; [cbn; lia|]. split; [cbn; lia|].
  apply epoch_name_order; cbn; lia.
Defined.

(** [os.path.dirname] of [d + "/" + f], for a non-empty directory [d]
    without trailing slash and a file name [f] without slash, is [d]. *)
Theorem dirname_join d f :
  d <> EmptyString -> rstrip_slash d = d -> rfind_slash f = None ->
  dirname (String.append d (String "/" f)) = d.
Proof. apply dirname_join_lemma. Qed.

Lemma dirname_join_witness :
  "training_1"%string <> EmptyString /\ rstrip_slash "training_1" = "training_1"%string /\
  rfind_slash "cp.ckpt" = None /\
  dirname (String.append "training_1" (String "/" "cp.ckpt")) = "training_1"%string.
Proof.
  split; [discriminate|]. split; [reflexivity|]. split; [reflexivity|].
  apply dirname_join; [discriminate|reflexivity|reflexivity].
Defined.

(** [os.path.dirname(p)] is empty exactly when [p] has no slash. *)
Theorem dirname_empty_iff p : dirname p = EmptyString <-> rfind_slash p = None.
Proof.
  unfold dirname. destruct (rfind_slash p) as [j|] eqn:E.
  - split; [|discriminate]. intros H. exfalso.
    destruct p as [|c p]; [discriminate|]. cbn [String.substring] in H.
    destruct (all_slash (String c (String.substring 0 j p))) eqn:Ea;
      cbn [String.eqb negb andb] in H; [discriminate|].
    apply rstrip_empty_all_slash in H. rewrite H in Ea. discriminate.
  - split; [reflexivity|]. intros _. now destruct p.
Qed.

(** Every checkpoint the epoch callback writes
    ([checkpoint_path.format(epoch=e)], for every [e]) lies in
    [checkpoint_dir = os.path.dirname(checkpoint_path)], the directory the
    notebook lists and reads [latest_checkpoint] from. *)
Theorem epoch_checkpoints_in_dir e :
  dirname (render_name checkpoint_path_2_template (mk_ctx e)) = dirname checkpoint_path_2.
Proof.
  change (render_name checkpoint_path_2_template (mk_ctx e)) with
    (String.append "training_2"
       (String "/" (String.append "cp-" (String.append (format_width 4 e)
                                          (String.append ".ckpt" EmptyString))))).
  rewrite dirname_join_lemma.
  - reflexivity.
  - discriminate.
  - reflexivity.
  - apply rfind_slash_app_none; [reflexivity|].
    apply rfind_slash_app_none; [apply is_digits_no_slash, is_digits_format|reflexivity].
Qed.

(** numpy's [reshape(-1, k)] succeeds exactly when [k > 0] divides the
    number of elements; its rows then have [k] elements each, there are
    [size / k] of them, and read in order they are the elements. *)
Theorem reshape_rows_spec {A} k (flat : list A) :
  (reshape_rows k flat <> None <-> 0 < k /\ List.length flat mod k = 0) /\
  (forall rows, reshape_rows k flat = Some rows ->
     List.concat rows = flat /\ Forall (fun r => List.length r = k) rows /\
     List.length rows = List.length flat / k).
Proof.
  unfold reshape_rows. split.
  - destruct (Nat.eqb_spec k 0) as [->|Hk]; cbn [orb].
    + split; [intros H; contradiction|lia].
    + destruct (Nat.eqb_spec (List.length flat mod k) 0) as [Hm|Hm]; cbn; split;
        try discriminate; try lia; intros H; contradiction.
  - intros rows. destruct (Nat.eqb_spec k 0) as [->|Hk]; cbn [orb]; [discriminate|].
    destruct (Nat.eqb_spec (List.length flat mod k) 0) as [Hm|Hm]; cbn; [|discriminate].
    intros [= <-]. apply chunk_rows_spec.
    pose proof (Nat.div_mod (List.length flat) k Hk). lia.
Qed.

(** [reshape(-1, k)] of rows of [k] elements laid out one after the
    other gives those rows back. *)
Theorem reshape_rows_of_rows {A} k (rows : list (list A)) :
  0 < k -> Forall (fun r => List.length r = k) rows ->
  reshape_rows k (List.concat rows) = Some rows.
Proof. apply reshape_rows_concat. Qed.

Lemma reshape_rows_of_rows_witness :
  0 < 2 /\ Forall (fun r => List.length r = 2) [[1; 2]; [3; 4]; [5; 6]] /\
  reshape_rows 2 (List.concat [[1; 2]; [3; 4]; [5; 6]]) = Some [[1; 2]; [3; 4]; [5; 6]].
Proof.
  assert (H : Forall (fun r : list nat => List.length r = 2) [[1; 2]; [3; 4]; [5; 6]])
    by (repeat constructor).
  split; [lia|]. split; [exact H|]. apply reshape_rows_of_rows; [lia|exact H].
Defined.



(** A stack of Dense and Dropout layers built from [in_dim] inputs has
    [in_dim * u + u] parameters for each [Dense u] (kernel and bias, the
    next layer's input being [u]) and none for a [Dropout]. *)
Theorem build_weights_param_count rng idx in_dim ls :
  param_count (build_weights rng idx in_dim ls) = dense_param_total in_dim ls.
Proof.
  revert idx in_dim. induction ls as [|[u a|r] ls IH]; intros idx in_dim; [reflexivity| |].
  - cbn [build_weights dense_param_total]. unfold param_count in *. cbn [fold_right shape snd].
    rewrite IH. lia.
  - apply IH.
Qed.

(** The parameter keys of a model built from any stack of layers
    (["layer_with_weights-i/kernel"], ["layer_with_weights-i/bias"]) are
    pairwise distinct. *)
Theorem build_weights_keys_distinct rng idx in_dim ls :
  NoDup (map fst (build_weights rng idx in_dim ls)).
Proof. apply build_weights_NoDup. Qed.


(** Two models built from the same stack of layers, whatever their
    initial values, have the same architecture: the weights of one apply
    to the other without mismatch and replace all of its values. *)
Theorem build_weights_apply rng1 rng2 idx in_dim ls :
  apply_weights (build_weights rng1 idx in_dim ls) (build_weights rng2 idx in_dim ls) =
  (Ok tt, build_weights rng1 idx in_dim ls).
Proof.
  unfold apply_weights. rewrite !signature_build_weights, sig_diffs_refl.
  rewrite set_parameters_same_keys; [reflexivity| |apply build_weights_NoDup].
  rewrite <- !keys_signature, !signature_build_weights. reflexivity.
Qed.
